(** * ApplyDiffTool: the search/replace patch engine

    A shallow embedding of [src/tools/ApplyDiffTool.ts]: the helper
    functions [levenshteinDistance], [getSimilarity],
    [everyLineHasLineNumbers], [stripLineNumbers] and the method
    [SearchReplaceDiffStrategy.applyDiff], followed by the properties of
    the matching-and-splicing engine.

    Conventions of the embedding.
    - A JavaScript string is its sequence of UTF-16 code units; a code unit
      is an [N].  Indexing, [length], [===], [slice], [split], [trim] and the
      regular expressions of the source all work on code units.
    - JavaScript numbers that hold line numbers, indices and lengths are
      integers here ([Z]); a missing optional argument is [None].
    - A similarity score is [1 - distance / maxLength]; it is kept as an
      exact rational ([Q]).  The source computes it in double precision:
      for strings shorter than 2^26 code units two different scores stay
      different and in the same order there, and a score is 1.0 there
      exactly when it is 1 here, so the comparisons between scores and
      against the thresholds 1.0 and 0 are those of the source; any other
      threshold is read as the rational it denotes.
    - The diagnostic text of a failure is not rebuilt character by
      character: a failure carries the kind of error and the values the
      source prints into its message. *)

From Stdlib Require Import String Ascii.
From Stdlib Require Import ZArith QArith Qabs List Bool Lia Sorted.
From Stdlib Require Import DecimalString DecimalPos.
Import ListNotations.

Local Open Scope Z_scope.

(** ** JavaScript strings and arrays *)

Module JS.

Definition char := N.
Definition jsstring := list char.

Definition TAB : char := 9%N.
Definition LF : char := 10%N.
Definition CR : char := 13%N.
Definition SPACE : char := 32%N.
Definition PIPE : char := 124%N.

(** Reads a literal: the escapes [\n], [\r], [\t] and [\\] stand for the
    characters they name in JavaScript source text; every other character
    is its own code. *)
Fixpoint js (s : string) : jsstring :=
  match s with
  | EmptyString => []
  | String c s' =>
      if Ascii.eqb c "\"%char then
        match s' with
        | String d s'' =>
            if Ascii.eqb d "n"%char then LF :: js s''
            else if Ascii.eqb d "r"%char then CR :: js s''
            else if Ascii.eqb d "t"%char then TAB :: js s''
            else if Ascii.eqb d "\"%char then N_of_ascii d :: js s''
            else N_of_ascii c :: js s'
        | EmptyString => [N_of_ascii c]
        end
      else N_of_ascii c :: js s'
  end.

(** [a === b] on strings. *)
Fixpoint streq (a b : jsstring) : bool :=
  match a, b with
  | [], [] => true
  | x :: a', y :: b' => N.eqb x y && streq a' b'
  | _, _ => false
  end.

Definition isEmpty (s : jsstring) : bool :=
  match s with [] => true | _ => false end.

(** [s.length], and [arr.length]. *)
Definition len {A} (l : list A) : Z := Z.of_nat (length l).

(** The class [\s] of a regular expression, which is also what [trim]
    removes: white space and line terminators. *)
Definition is_space (c : char) : bool :=
  ((9 <=? c) && (c <=? 13) || (c =? 32) || (c =? 160) || (c =? 5760)
   || (8192 <=? c) && (c <=? 8202) || (c =? 8232) || (c =? 8233)
   || (c =? 8239) || (c =? 8287) || (c =? 12288) || (c =? 65279))%N.

(** The class [\d]. *)
Definition is_digit (c : char) : bool := ((48 <=? c) && (c <=? 57))%N.

(** The class [[\t ]]. *)
Definition is_indent (c : char) : bool := ((c =? TAB) || (c =? SPACE))%N.

(** What [.] refuses: the line terminators. *)
Definition is_line_terminator (c : char) : bool :=
  ((c =? LF) || (c =? CR) || (c =? 8232) || (c =? 8233))%N.

Fixpoint takeWhile {A} (p : A -> bool) (l : list A) : list A :=
  match l with
  | [] => []
  | x :: l' => if p x then x :: takeWhile p l' else []
  end.

Fixpoint dropWhile {A} (p : A -> bool) (l : list A) : list A :=
  match l with
  | [] => []
  | x :: l' => if p x then dropWhile p l' else l
  end.

(** [s.trim()]. *)
Definition trimStart (s : jsstring) : jsstring := dropWhile is_space s.
Definition trimEnd (s : jsstring) : jsstring :=
  rev (dropWhile is_space (rev s)).
Definition trim (s : jsstring) : jsstring := trimEnd (trimStart s).

(** [s.replace(/\s+/g, ' ')]: every maximal run of white space becomes one
    space.  [inRun] tells that the previous character was white space. *)
Fixpoint collapseFrom (inRun : bool) (s : jsstring) : jsstring :=
  match s with
  | [] => []
  | c :: s' =>
      if is_space c
      then (if inRun then collapseFrom true s' else SPACE :: collapseFrom true s')
      else c :: collapseFrom false s'
  end.

Definition collapseSpaces (s : jsstring) : jsstring := collapseFrom false s.

(** [arr.slice(start, end)] and [str.slice(start, end)], with the
    treatment of negative and too large indices of the language. *)
Definition clampIndex (n i : Z) : Z :=
  if i <? 0 then Z.max (n + i) 0 else Z.min i n.

Definition slice {A} (l : list A) (start stop : Z) : list A :=
  let k := clampIndex (len l) start in
  let f := clampIndex (len l) stop in
  firstn (Z.to_nat (f - k)) (skipn (Z.to_nat k) l).

(** [arr.slice(start)]. *)
Definition sliceFrom {A} (l : list A) (start : Z) : list A :=
  slice l start (len l).

(** [lines.join(sep)]. *)
Fixpoint join (sep : jsstring) (ls : list jsstring) : jsstring :=
  match ls with
  | [] => []
  | l :: rest =>
      match rest with
      | [] => l
      | _ :: _ => l ++ sep ++ join sep rest
      end
  end.

(** Puts a character in front of the first line of a list of lines. *)
Definition consLine (c : char) (ls : list jsstring) : list jsstring :=
  match ls with
  | [] => [[c]]
  | l :: rest => (c :: l) :: rest
  end.

(** [s.split(/\r?\n/)]: a line ends at a line feed, and a carriage
    return right before that line feed belongs to the separator. *)
Fixpoint splitLines (s : jsstring) : list jsstring :=
  match s with
  | [] => [[]]
  | c :: s' =>
      if (c =? LF)%N then [] :: splitLines s'
      else
        match s' with
        | d :: s'' =>
            if ((c =? CR) && (d =? LF))%N then [] :: splitLines s''
            else consLine c (splitLines s')
        | [] => [[c]]
        end
  end.

(** Removes [p] from the front of [s] when [s] starts with it. *)
Fixpoint stripPrefix (p s : jsstring) : option jsstring :=
  match p with
  | [] => Some s
  | x :: p' =>
      match s with
      | [] => None
      | y :: s' => if (x =? y)%N then stripPrefix p' s' else None
      end
  end.

(** [s.includes(needle)]. *)
Fixpoint includes (needle s : jsstring) : bool :=
  match stripPrefix needle s with
  | Some _ => true
  | None =>
      match s with
      | [] => false
      | _ :: s' => includes needle s'
      end
  end.

End JS.

Import JS.

(** ** Helper functions of the tool *)

(** *** [levenshteinDistance] *)

(** The inner loop over [j] for one row [i]: [diag] is
    [matrix[i-1][j-1]], [left] is [matrix[i][j-1]] and [up] lists
    [matrix[i-1][j]], [matrix[i-1][j+1]], ...; the result lists
    [matrix[i][j]], [matrix[i][j+1]], ... *)
Fixpoint fillRow (ai : char) (b : jsstring) (diag left : Z) (up : list Z)
  : list Z :=
  match b, up with
  | bj :: b', u :: up' =>
      let cell :=
        if (ai =? bj)%N then diag
        else Z.min (Z.min (diag + 1) (left + 1)) (u + 1) in
      cell :: fillRow ai b' u cell up'
  | _, _ => []
  end.

(** The outer loop over [i]: [prev] is row [i-1]; row [i] starts with
    the [i] that the first loop of the source stored in column 0. *)
Fixpoint fillRows (a b : jsstring) (i : Z) (prev : list Z) : list (list Z) :=
  match a with
  | [] => []
  | ai :: a' =>
      let row := i :: fillRow ai b (hd 0 prev) i (tl prev) in
      row :: fillRows a' b (i + 1) row
  end.

(** Row 0 after the second loop of the source: [matrix[0][j] = j]. *)
Definition firstRow (b : jsstring) : list Z :=
  map Z.of_nat (seq 0 (S (length b))).

Definition matrix (a b : jsstring) : list (list Z) :=
  firstRow b :: fillRows a b 1 (firstRow b).

Definition levenshteinDistance (a b : jsstring) : Z :=
  nth (length b) (nth (length a) (matrix a b) []) 0.

(** *** [getSimilarity] *)

Definition normalizeStr (str : jsstring) : jsstring :=
  trim (collapseSpaces str).

Definition getSimilarity (original search : jsstring) : Q :=
  if isEmpty search then 1%Q
  else
    let normalizedOriginal := normalizeStr original in
    let normalizedSearch := normalizeStr search in
    if streq normalizedOriginal normalizedSearch then 1%Q
    else
      let distance := levenshteinDistance normalizedOriginal normalizedSearch in
      let maxLength := Z.max (len normalizedOriginal) (len normalizedSearch) in
      (1 - inject_Z distance / inject_Z maxLength)%Q.

(** *** [addLineNumbers] *)

(** [String(n)] for a whole number: its decimal digits, after a minus
    sign when it is negative.  (Beyond 10^21 the language switches to
    the exponent notation; line numbers stay far below.) *)
Definition numberToString (n : Z) : jsstring :=
  map N_of_ascii
    (list_ascii_of_string (NilZero.string_of_int (Z.to_int n))).

(** [s.padStart(targetLength, ' ')]. *)
Definition padStart (targetLength : Z) (s : jsstring) : jsstring :=
  repeat SPACE (Z.to_nat (targetLength - len s)) ++ s.

(** [content.split('\n')]. *)
Fixpoint splitLF (s : jsstring) : list jsstring :=
  match s with
  | [] => [[]]
  | c :: s' =>
      if (c =? LF)%N then [] :: splitLF s' else consLine c (splitLF s')
  end.

(** The callback of [lines.map], on the lines from [index] on: the line
    number, padded, then [" | "] and the line. *)
Fixpoint numberLines (maxLineNumberWidth startLine index : Z)
    (lines : list jsstring) : list jsstring :=
  match lines with
  | [] => []
  | line :: rest =>
      let lineNumber :=
        padStart maxLineNumberWidth (numberToString (startLine + index)) in
      (lineNumber ++ js " | " ++ line)
      :: numberLines maxLineNumberWidth startLine (index + 1) rest
  end.

Definition addLineNumbers (content : jsstring) (startLine : Z) : jsstring :=
  let lines := splitLF content in
  let maxLineNumberWidth :=
    len (numberToString (startLine + len lines - 1)) in
  join [LF] (numberLines maxLineNumberWidth startLine 0 lines).

(** *** Line-number annotations *)

(** The test [/^\s*\d+\s+\|(?!\|)/] on one line.  Each greedy loop is
    followed by a character outside its class, so the match is found
    without backtracking; the result is what follows the pipe. *)
Definition afterAnnotation (line : jsstring) : option jsstring :=
  let s1 := dropWhile is_space line in
  match takeWhile is_digit s1 with
  | [] => None
  | _ :: _ =>
      let s2 := dropWhile is_digit s1 in
      match takeWhile is_space s2 with
      | [] => None
      | _ :: _ =>
          match dropWhile is_space s2 with
          | [] => None
          | c :: rest =>
              if (c =? PIPE)%N then
                match rest with
                | [] => Some rest
                | d :: _ => if (d =? PIPE)%N then None else Some rest
                end
              else None
          end
      end
  end.

Definition hasLineNumber (line : jsstring) : bool :=
  match afterAnnotation line with Some _ => true | None => false end.

Definition everyLineHasLineNumbers (content : jsstring) : bool :=
  let lines := splitLines content in
  (0 <? len lines) && forallb hasLineNumber lines.

(** The capture [.*] up to the end anchor: the rest of the line is
    captured when no line terminator occurs in it. *)
Definition dotStarToEnd (s : jsstring) : option jsstring :=
  if existsb is_line_terminator s then None else Some s.

(** The match of the annotation, one optional [\s] and the capture of
    the rest of the line; then [match[1]], or the line itself when the
    expression does not match.  [\s?] first takes one white space
    character and gives it back when the rest does not match that way. *)
Definition stripLine (line : jsstring) : jsstring :=
  match afterAnnotation line with
  | None => line
  | Some rest =>
      let skipOne :=
        match rest with
        | c :: rest' => if is_space c then dotStarToEnd rest' else None
        | [] => None
        end in
      match skipOne with
      | Some content => content
      | None =>
          match dotStarToEnd rest with
          | Some content => content
          | None => line
          end
      end
  end.

Definition CRLF : jsstring := [CR; LF].

Definition detectLineEnding (content : jsstring) : jsstring :=
  if includes CRLF content then CRLF else [LF].

Definition stripLineNumbers (content : jsstring) : jsstring :=
  let lines := splitLines content in
  let processedLines := map stripLine lines in
  join (detectLineEnding content) processedLines.

(** ** The diff strategy *)

Record SearchReplaceDiffStrategy := {
  fuzzyThreshold : Q;
  bufferLines : Z
}.

Definition BUFFER_LINES : Z := 20.

(** The constructor: [fuzzyThreshold ?? 1.0] and
    [bufferLines ?? BUFFER_LINES]. *)
Definition newStrategy (threshold : option Q) (buffer : option Z)
  : SearchReplaceDiffStrategy :=
  {| fuzzyThreshold := match threshold with Some t => t | None => 1%Q end;
     bufferLines := match buffer with Some b => b | None => BUFFER_LINES end |}.

(** The values a failure message is built from. *)
Inductive DiffError :=
| InvalidDiffFormat
| EmptySearchRequiresStartLine
| EmptySearchRequiresSameLines (startLine endLine : Z)
| InvalidLineRange (startLine endLine fileLines : Z)
| NoSufficientMatch (score threshold : Q) (matchAt : Z) (bestMatch : jsstring).

Inductive DiffResult :=
| Success (content : jsstring)
| Failure (error : DiffError).

(** *** The marker grammar

    [diffContent.match(/<<<<<<< SEARCH\n([\s\S]*?)\n?=======\n([\s\S]*?)\n?>>>>>>> REPLACE/)],
    as the backtracking matcher runs it: each piece takes the
    continuation that matches the rest of the expression. *)

Section Regex.

Context {R : Type}.

(** A literal. *)
Definition lit (p : jsstring) (k : jsstring -> option R) (s : jsstring)
  : option R :=
  match stripPrefix p s with
  | Some s' => k s'
  | None => None
  end.

(** [\n?]: greedy, one line feed first, none on failure. *)
Definition optNewline (k : jsstring -> option R) (s : jsstring) : option R :=
  let without := k s in
  match s with
  | c :: s' =>
      if (c =? LF)%N then
        match k s' with
        | Some r => Some r
        | None => without
        end
      else without
  | [] => without
  end.

(** [([\s\S]*?)]: lazy, the shortest capture for which the rest
    matches; [acc] holds the characters captured so far, reversed. *)
Fixpoint lazyAny (k : jsstring -> jsstring -> option R) (acc s : jsstring)
  : option R :=
  match k (rev acc) s with
  | Some r => Some r
  | None =>
      match s with
      | [] => None
      | c :: s' => lazyAny k (c :: acc) s'
      end
  end.

(** An expression without [^] is tried at every position, leftmost
    first. *)
Fixpoint searchFrom (m : jsstring -> option R) (s : jsstring) : option R :=
  match m s with
  | Some r => Some r
  | None =>
      match s with
      | [] => None
      | _ :: s' => searchFrom m s'
      end
  end.

End Regex.

Definition SEARCH_MARKER : jsstring := js "<<<<<<< SEARCH\n".
Definition SEPARATOR : jsstring := js "=======\n".
Definition REPLACE_MARKER : jsstring := js ">>>>>>> REPLACE".

Definition matchBlockAt (s : jsstring) : option (jsstring * jsstring) :=
  lit SEARCH_MARKER
    (lazyAny (fun searchContent =>
       optNewline (lit SEPARATOR
         (lazyAny (fun replaceContent =>
            optNewline (lit REPLACE_MARKER
              (fun _ => Some (searchContent, replaceContent)))) []))) [])
    s.

Definition parseDiff (diffContent : jsstring) : option (jsstring * jsstring) :=
  searchFrom matchBlockAt diffContent.

(** *** Normalizer: the two blocks as line sequences *)

Definition stripBlocks (searchContent replaceContent : jsstring)
  : jsstring * jsstring :=
  if everyLineHasLineNumbers searchContent
     && everyLineHasLineNumbers replaceContent
  then (stripLineNumbers searchContent, stripLineNumbers replaceContent)
  else (searchContent, replaceContent).

(** [content === '' ? [] : content.split(/\r?\n/)]. *)
Definition blockLines (content : jsstring) : list jsstring :=
  if isEmpty content then [] else splitLines content.

(** *** Matcher *)

(** An optional number in a condition: [undefined] and [0] are falsy. *)
Definition truthy (x : option Z) : bool :=
  match x with
  | Some n => negb (n =? 0)
  | None => false
  end.

(** The number an optional argument holds, where the source has tested
    that it holds one. *)
Definition numberOf (x : option Z) : Z :=
  match x with Some n => n | None => 0 end.

(** The three variables the search keeps about the best candidate. *)
Record Best := {
  matchIndex : Z;
  bestMatchScore : Q;
  bestMatchContent : jsstring
}.

Definition noMatch : Best :=
  {| matchIndex := -1; bestMatchScore := 0%Q; bestMatchContent := [] |}.

Definition Qlt_bool (x y : Q) : bool := negb (Qle_bool y x).

Section Scan.

Variable originalLines searchLines : list jsstring.

Definition searchChunk : jsstring := join [LF] searchLines.

(** The chunk of [searchLines.length] original lines at [i]. *)
Definition chunkAt (i : Z) : jsstring :=
  join [LF] (slice originalLines i (i + len searchLines)).

Definition scoreAt (i : Z) : Q := getSimilarity (chunkAt i) searchChunk.

(** One probe of the scan: the candidate at [i] replaces the best one
    on a strictly greater score. *)
Definition probe (i : Z) (b : Best) : Best :=
  let chunk := chunkAt i in
  let similarity := getSimilarity chunk searchChunk in
  if Qlt_bool (bestMatchScore b) similarity
  then {| matchIndex := i; bestMatchScore := similarity;
          bestMatchContent := chunk |}
  else b.

Variable searchStartIndex searchEndIndex : Z.

Record ScanState := {
  leftIndex : Z;
  rightIndex : Z;
  best : Best
}.

(** The condition of the [while]. *)
Definition leftInRange (st : ScanState) : bool :=
  searchStartIndex <=? leftIndex st.

Definition rightInRange (st : ScanState) : bool :=
  rightIndex st <=? searchEndIndex - len searchLines.

(** The body of the [while]: the left probe, then the right probe. *)
Definition scanBody (st : ScanState) : ScanState :=
  let st1 :=
    if leftInRange st
    then {| leftIndex := leftIndex st - 1;
            rightIndex := rightIndex st;
            best := probe (leftIndex st) (best st) |}
    else st in
  if rightInRange st1
  then {| leftIndex := leftIndex st1;
          rightIndex := rightIndex st1 + 1;
          best := probe (rightIndex st1) (best st1) |}
  else st1.

(** The [while] loop; [None] when [fuel] iterations do not reach the
    exit. *)
Fixpoint scanLoop (fuel : nat) (st : ScanState) : option ScanState :=
  if leftInRange st || rightInRange st then
    match fuel with
    | O => None
    | S fuel' => scanLoop fuel' (scanBody st)
    end
  else Some st.

Definition midPoint : Z := (searchStartIndex + searchEndIndex) / 2.

Definition scanStart (b : Best) : ScanState :=
  {| leftIndex := midPoint; rightIndex := midPoint + 1; best := b |}.

(** The number of iterations the loop makes from [scanStart]. *)
Definition scanFuel : nat :=
  Z.to_nat (Z.max (midPoint - searchStartIndex + 1)
                  (searchEndIndex - len searchLines - midPoint)).

Definition middleOutScan (b : Best) : option Best :=
  option_map best (scanLoop scanFuel (scanStart b)).

End Scan.

(** What the hinted exact check leaves behind: an error, or the best
    match so far with the bounds of the window to scan. *)
Inductive Hinted :=
| HintError (e : DiffError)
| HintDone (b : Best) (searchStartIndex searchEndIndex : Z).

Definition hintedCheck (self : SearchReplaceDiffStrategy)
    (originalLines searchLines : list jsstring)
    (startLine endLine : option Z) : Hinted :=
  if truthy startLine && truthy endLine then
    let exactStartIndex := numberOf startLine - 1 in
    let exactEndIndex := numberOf endLine - 1 in
    if (exactStartIndex <? 0) || (len originalLines <=? exactEndIndex)
       || (exactEndIndex <? exactStartIndex)
    then HintError (InvalidLineRange (numberOf startLine) (numberOf endLine)
                      (len originalLines))
    else
      let originalChunk :=
        join [LF] (slice originalLines exactStartIndex (exactEndIndex + 1)) in
      let similarity := getSimilarity originalChunk (searchChunk searchLines) in
      if Qle_bool (fuzzyThreshold self) similarity
      then HintDone {| matchIndex := exactStartIndex;
                       bestMatchScore := similarity;
                       bestMatchContent := originalChunk |}
                    0 (len originalLines)
      else HintDone noMatch
             (Z.max 0 (numberOf startLine - (bufferLines self + 1)))
             (Z.min (len originalLines) (numberOf endLine + bufferLines self))
  else HintDone noMatch 0 (len originalLines).

(** *** Splicer *)

(** [line.match(/^[\t ]*/)[0]]. *)
Definition leadingIndent (line : jsstring) : jsstring :=
  takeWhile is_indent line.

(** [indents[0] || '']. *)
Definition firstOrEmpty (indents : list jsstring) : jsstring :=
  match indents with
  | [] => []
  | i :: _ => i
  end.

(** The callback of [replaceLines.map]. *)
Definition indentLine (originalIndents searchIndents : list jsstring)
    (line : jsstring) : jsstring :=
  let matchedIndent := firstOrEmpty originalIndents in
  let currentIndent := leadingIndent line in
  let searchBaseIndent := firstOrEmpty searchIndents in
  let searchBaseLevel := len searchBaseIndent in
  let currentLevel := len currentIndent in
  let relativeLevel := currentLevel - searchBaseLevel in
  let finalIndent :=
    if relativeLevel <? 0
    then slice matchedIndent 0 (Z.max 0 (len matchedIndent + relativeLevel))
    else matchedIndent ++ sliceFrom currentIndent searchBaseLevel in
  finalIndent ++ trim line.

Definition indentedReplaceLines (originalLines searchLines replaceLines
    : list jsstring) (matchIndex : Z) : list jsstring :=
  let matchedLines :=
    slice originalLines matchIndex (matchIndex + len searchLines) in
  let originalIndents := map leadingIndent matchedLines in
  let searchIndents := map leadingIndent searchLines in
  map (indentLine originalIndents searchIndents) replaceLines.

Definition splice (lineEnding : jsstring)
    (originalLines searchLines replaceLines : list jsstring) (matchIndex : Z)
  : jsstring :=
  let beforeMatch := slice originalLines 0 matchIndex in
  let afterMatch := sliceFrom originalLines (matchIndex + len searchLines) in
  join lineEnding
    (beforeMatch
     ++ indentedReplaceLines originalLines searchLines replaceLines matchIndex
     ++ afterMatch).

(** *** [applyDiff]

    The result is [None] only if the scan loop were to run out of
    iterations; [applyDiff_returns] shows that it never does. *)

(** The search for the match, from the hinted check to the end of the
    scan. *)
Definition findMatch (self : SearchReplaceDiffStrategy)
    (originalLines searchLines : list jsstring)
    (startLine endLine : option Z) : option (DiffError + Best) :=
  match hintedCheck self originalLines searchLines startLine endLine with
  | HintError e => Some (inl e)
  | HintDone b searchStartIndex searchEndIndex =>
      if matchIndex b =? -1
      then option_map inr
             (middleOutScan originalLines searchLines
                searchStartIndex searchEndIndex b)
      else Some (inr b)
  end.

(** The SEARCH and REPLACE line sequences of a diff text: the marker
    grammar, the annotations, the split into lines. *)
Definition patchLines (diffContent : jsstring)
  : option (list jsstring * list jsstring) :=
  match parseDiff diffContent with
  | None => None
  | Some (searchContent0, replaceContent0) =>
      let '(searchContent, replaceContent) :=
        stripBlocks searchContent0 replaceContent0 in
      Some (blockLines searchContent, blockLines replaceContent)
  end.

Definition applyDiff (self : SearchReplaceDiffStrategy)
    (originalContent diffContent : jsstring)
    (startLine endLine : option Z) : option DiffResult :=
  match patchLines diffContent with
  | None => Some (Failure InvalidDiffFormat)
  | Some (searchLines, replaceLines) =>
      let lineEnding := detectLineEnding originalContent in
      let originalLines := splitLines originalContent in
      if (len searchLines =? 0) && negb (truthy startLine)
      then Some (Failure EmptySearchRequiresStartLine)
      else if (len searchLines =? 0) && truthy startLine && truthy endLine
              && negb (numberOf startLine =? numberOf endLine)
      then Some (Failure (EmptySearchRequiresSameLines
                            (numberOf startLine) (numberOf endLine)))
      else
        match findMatch self originalLines searchLines startLine endLine with
        | None => None
        | Some (inl e) => Some (Failure e)
        | Some (inr b) =>
            if (matchIndex b =? -1)
               || Qlt_bool (bestMatchScore b) (fuzzyThreshold self)
            then Some (Failure (NoSufficientMatch (bestMatchScore b)
                                  (fuzzyThreshold self) (matchIndex b)
                                  (bestMatchContent b)))
            else Some (Success (splice lineEnding originalLines searchLines
                                  replaceLines (matchIndex b)))
        end
  end.

(** * Reference definitions

    The definitions the properties are stated with: the recurrence of
    the edit distance, the probing order of the scan, the rules of the
    specification and the inputs of the examples. *)

(** The recurrence the matrix obeys, on the reversed prefixes of the two
    strings: [editDistance (rev (firstn i a)) (rev (firstn j b))] is the
    cell [matrix[i][j]]. *)
Fixpoint editDistance (a : jsstring) : jsstring -> Z :=
  fix inner (b : jsstring) : Z :=
    match a, b with
    | [], _ => len b
    | _ :: _, [] => len a
    | x :: a', y :: b' =>
        if (x =? y)%N then editDistance a' b'
        else Z.min (Z.min (editDistance a' b' + 1) (inner b' + 1))
                   (editDistance a' b + 1)
    end.

(** The cells of one row to the right of a column: [rb] is the reversed
    prefix of the second string up to that column. *)
Fixpoint rowFrom (ra rb rest : jsstring) : list Z :=
  match rest with
  | [] => []
  | y :: rest' => editDistance ra (y :: rb) :: rowFrom ra (y :: rb) rest'
  end.

Definition fullRow (ra b : jsstring) : list Z :=
  editDistance ra [] :: rowFrom ra [] b.

(** The start indices the loop of the scan scores from the two indices
    [l] and [r] on, in the order it scores them. *)
Fixpoint probeOrder (searchLines : list jsstring)
    (searchStartIndex searchEndIndex : Z) (fuel : nat) (l r : Z) : list Z :=
  if (searchStartIndex <=? l) || (r <=? searchEndIndex - len searchLines) then
    match fuel with
    | O => []
    | S fuel' =>
        (if searchStartIndex <=? l then [l] else [])
        ++ (if r <=? searchEndIndex - len searchLines then [r] else [])
        ++ probeOrder searchLines searchStartIndex searchEndIndex fuel'
             (if searchStartIndex <=? l then l - 1 else l)
             (if r <=? searchEndIndex - len searchLines then r + 1 else r)
    end
  else [].

(** The iterations left before the loop exits. *)
Definition remaining (searchLines : list jsstring)
    (searchStartIndex searchEndIndex : Z) (l r : Z) : nat :=
  Z.to_nat (Z.max (l - searchStartIndex + 1)
                  (searchEndIndex - len searchLines - r + 1)).

(** The candidates of one scan, in probing order. *)
Definition probes (searchLines : list jsstring)
    (searchStartIndex searchEndIndex : Z) : list Z :=
  probeOrder searchLines searchStartIndex searchEndIndex
    (scanFuel searchLines searchStartIndex searchEndIndex)
    (midPoint searchStartIndex searchEndIndex)
    (midPoint searchStartIndex searchEndIndex + 1).

(** The two indices move in step while both are in range, and an index
    only stops once it has left its range. *)
Definition inStep (searchLines : list jsstring)
    (searchStartIndex searchEndIndex : Z) (m l r : Z) : Prop :=
  l <= m /\ m + 1 <= r
  /\ (searchStartIndex <= l -> r - m - 1 <= m - l)
  /\ (r <= searchEndIndex - len searchLines -> m - l <= r - m - 1).

Definition closerTo (m i j : Z) : Prop := Z.abs (i - m) <= Z.abs (j - m).

(** The rule of the specification for the indent of one REPLACE line. *)
Definition finalIndentSpec (matchedIndent searchBaseIndent currentIndent
    : jsstring) : jsstring :=
  let relativeLevel := len currentIndent - len searchBaseIndent in
  if relativeLevel <? 0
  then firstn (length matchedIndent - Z.to_nat (Z.abs relativeLevel))
         matchedIndent
  else matchedIndent ++ skipn (length searchBaseIndent) currentIndent.

(** The leading white space of the first line of a line sequence, empty
    when there is no line. *)
Definition firstIndent (lines : list jsstring) : jsstring :=
  match lines with
  | [] => []
  | line :: _ => leadingIndent line
  end.

(** The cases in which the search for the SEARCH lines fails, for
    hints that are absent or not zero: SEARCH is empty and there is no
    start hint, or both hints are given and differ; both hints are given
    and the range leaves the document or is inverted; the search ends
    without a candidate (none scored above zero) or with a best score
    below the threshold. *)
Definition linesFailure (self : SearchReplaceDiffStrategy)
    (originalLines searchLines : list jsstring) (startLine endLine : option Z)
  : Prop :=
  searchLines = [] /\ startLine = None
  \/ (searchLines = []
      /\ exists s e, startLine = Some s /\ endLine = Some e /\ s <> e)
  \/ (exists s e, startLine = Some s /\ endLine = Some e
        /\ (s < 1 \/ len originalLines < e \/ e < s))
  \/ (exists b,
        findMatch self originalLines searchLines startLine endLine
        = Some (inr b)
        /\ (matchIndex b = -1 \/ (bestMatchScore b < fuzzyThreshold self)%Q)).

(** The cases in which [applyDiff] fails: the diff text has no
    well-formed block, or the search for its SEARCH lines fails. *)
Definition failureCase (self : SearchReplaceDiffStrategy)
    (originalContent diffContent : jsstring) (startLine endLine : option Z)
  : Prop :=
  patchLines diffContent = None
  \/ exists searchLines replaceLines,
       patchLines diffContent = Some (searchLines, replaceLines)
       /\ linesFailure self (splitLines originalContent) searchLines
            startLine endLine.

(** Tells whether a text holds a line feed that does not follow a
    carriage return; [afterCr] tells that the previous character was a
    carriage return. *)
Fixpoint bareLFFrom (afterCr : bool) (s : jsstring) : bool :=
  match s with
  | [] => false
  | c :: s' =>
      if (c =? LF)%N then negb afterCr || bareLFFrom false s'
      else bareLFFrom (c =? CR)%N s'
  end.

Definition bareLF (s : jsstring) : bool := bareLFFrom false s.

(** A line as [split(/\r?\n/)] leaves it when a line feed follows: a
    carriage return at its end belongs to the separator. *)
Fixpoint chopCR (line : jsstring) : jsstring :=
  match line with
  | [] => []
  | c :: rest =>
      match rest with
      | [] => if (c =? CR)%N then [] else [c]
      | _ :: _ => c :: chopCR rest
      end
  end.

(** Tells that the line feed is the only line terminator of a text: no
    carriage return, no U+2028 and no U+2029. *)
(** [Number.MAX_SAFE_INTEGER]: up to it the language's numbers are the
    whole numbers, and [String] writes them with all their digits. *)
Definition MAX_SAFE_INTEGER : Z := 2 ^ 53 - 1.

Definition lineFeedsOnly (s : jsstring) : bool :=
  forallb (fun c => negb (is_line_terminator c) || (c =? LF)%N) s.

(** The strategy the tool builds: [new SearchReplaceDiffStrategy()]. *)
Definition defaultStrategy : SearchReplaceDiffStrategy := newStrategy None None.

(** The diff text with one block around a SEARCH text and a REPLACE
    text. *)
Definition buildDiff (search replace : jsstring) : jsstring :=
  SEARCH_MARKER ++ search ++ [LF] ++ SEPARATOR ++ replace ++ [LF]
  ++ REPLACE_MARKER.

(** The brute-force reference of the specification for the scan: every
    candidate start from the window start to the last one at which the
    SEARCH length still fits in the window, first to last. *)
Definition windowStarts (searchLines : list jsstring)
    (searchStartIndex searchEndIndex : Z) : list Z :=
  map (fun k => searchStartIndex + Z.of_nat k)
    (seq 0 (Z.to_nat (searchEndIndex - len searchLines - searchStartIndex + 1))).

Definition exhaustiveScanSpec (originalLines searchLines : list jsstring)
    (searchStartIndex searchEndIndex : Z) : Best :=
  fold_left (fun b i => probe originalLines searchLines i b)
    (windowStarts searchLines searchStartIndex searchEndIndex) noMatch.

(** * Properties *)

(** ** Strings and lists *)

Lemma streq_eq (a b : jsstring) : streq a b = true <-> a = b.
Proof.
  revert b; induction a as [|x a IH]; intros [|y b]; simpl;
    try (split; [discriminate | congruence]); [tauto|].
  rewrite andb_true_iff, N.eqb_eq, IH. split.
  - intros [-> ->]; reflexivity.
  - intros E; injection E; auto.
Qed.

Lemma streq_refl (a : jsstring) : streq a a = true.
Proof. apply streq_eq; reflexivity. Qed.

Lemma streq_sym (a b : jsstring) : streq a b = streq b a.
Proof.
  destruct (streq a b) eqn:E1, (streq b a) eqn:E2; trivial.
  - apply streq_eq in E1; subst. rewrite streq_refl in E2; discriminate.
  - apply streq_eq in E2; subst. rewrite streq_refl in E1; discriminate.
Qed.

Lemma len_nonneg {A} (l : list A) : 0 <= len l.
Proof. unfold len; lia. Qed.

Lemma len_app {A} (l1 l2 : list A) : len (l1 ++ l2) = len l1 + len l2.
Proof. unfold len; rewrite length_app; lia. Qed.

Lemma len_zero_nil {A} (l : list A) : len l = 0 -> l = [].
Proof. destruct l; [reflexivity | unfold len; simpl; lia]. Qed.

(** [slice] between two indices in range is [skipn] then [firstn]. *)
Lemma slice_in_range {A} (l : list A) (i j : Z) :
  0 <= i -> i <= j -> j <= len l ->
  slice l i j = firstn (Z.to_nat (j - i)) (skipn (Z.to_nat i) l).
Proof.
  intros Hi Hij Hj. unfold slice, clampIndex.
  destruct (i <? 0) eqn:E1; [apply Z.ltb_lt in E1; lia|].
  destruct (j <? 0) eqn:E2; [apply Z.ltb_lt in E2; lia|].
  rewrite !Z.min_l by lia. reflexivity.
Qed.

Lemma slice_prefix {A} (l : list A) (j : Z) :
  0 <= j -> slice l 0 j = firstn (Z.to_nat j) l.
Proof.
  intros Hj. unfold slice, clampIndex. simpl (0 <? 0).
  destruct (j <? 0) eqn:E2; [apply Z.ltb_lt in E2; lia|].
  rewrite (Z.min_l 0) by apply len_nonneg. simpl skipn.
  rewrite Z.sub_0_r. destruct (Z.le_ge_cases j (len l)).
  - rewrite Z.min_l by lia. reflexivity.
  - rewrite Z.min_r by lia. unfold len in *.
    rewrite !firstn_all2 by lia. reflexivity.
Qed.

Lemma sliceFrom_suffix {A} (l : list A) (i : Z) :
  0 <= i -> sliceFrom l i = skipn (Z.to_nat i) l.
Proof.
  intros Hi. unfold sliceFrom, slice, clampIndex.
  destruct (i <? 0) eqn:E1; [apply Z.ltb_lt in E1; lia|].
  destruct (len l <? 0) eqn:E2;
    [apply Z.ltb_lt in E2; pose proof (len_nonneg l); lia|].
  rewrite Z.min_id. destruct (Z.le_ge_cases i (len l)).
  - rewrite Z.min_l by lia. apply firstn_all2.
    rewrite length_skipn. unfold len in *. lia.
  - rewrite Z.min_r by lia. unfold len in *.
    rewrite !skipn_all2 by lia. destruct (Z.to_nat _); reflexivity.
Qed.

(** ** The edit distance *)

Lemma editDistance_nil_r (a : jsstring) : editDistance a [] = len a.
Proof. destruct a; reflexivity. Qed.

Lemma editDistance_nil_l (b : jsstring) : editDistance [] b = len b.
Proof. destruct b; reflexivity. Qed.

Lemma editDistance_cons (x y : char) (a b : jsstring) :
  editDistance (x :: a) (y :: b) =
  if (x =? y)%N then editDistance a b
  else Z.min (Z.min (editDistance a b + 1) (editDistance (x :: a) b + 1))
             (editDistance a (y :: b) + 1).
Proof. reflexivity. Qed.

Lemma editDistance_sym (a b : jsstring) : editDistance a b = editDistance b a.
Proof.
  revert b; induction a as [|x a IHa]; intros b.
  - rewrite editDistance_nil_r. apply editDistance_nil_l.
  - induction b as [|y b IHb].
    + reflexivity.
    + rewrite !editDistance_cons, N.eqb_sym.
      rewrite IHb, (IHa b), (IHa (y :: b)).
      destruct (y =? x)%N; [reflexivity | lia].
Qed.

Lemma fillRow_rowFrom (ai : char) (ra : jsstring) :
  forall rest rb,
    fillRow ai rest (editDistance ra rb) (editDistance (ai :: ra) rb)
      (rowFrom ra rb rest)
    = rowFrom (ai :: ra) rb rest.
Proof.
  induction rest as [|y rest IH]; intros rb; [reflexivity|].
  cbn [rowFrom fillRow]. rewrite <- IH, editDistance_cons. reflexivity.
Qed.

Lemma rowFrom_nil (rest rb : jsstring) :
  rowFrom [] rb rest = map Z.of_nat (seq (S (length rb)) (length rest)).
Proof.
  revert rb; induction rest as [|y rest IH]; intros rb; [reflexivity|].
  cbn [rowFrom length seq map]. rewrite IH. reflexivity.
Qed.

Lemma firstRow_fullRow (b : jsstring) : firstRow b = fullRow [] b.
Proof. unfold firstRow, fullRow. rewrite rowFrom_nil. reflexivity. Qed.

Lemma fillRows_nth (b : jsstring) :
  forall a ra,
    nth (length a)
        (fullRow ra b :: fillRows a b (len ra + 1) (fullRow ra b)) []
    = fullRow (rev a ++ ra) b.
Proof.
  induction a as [|x a IH]; intros ra; [reflexivity|].
  cbn [length nth fillRows].
  replace (len ra + 1 :: fillRow x b (hd 0 (fullRow ra b)) (len ra + 1)
             (tl (fullRow ra b)))
    with (fullRow (x :: ra) b).
  - replace (len ra + 1 + 1) with (len (x :: ra) + 1)
      by (unfold len; simpl length; lia).
    transitivity (fullRow (rev a ++ x :: ra) b); [exact (IH (x :: ra))|].
    simpl rev. rewrite <- app_assoc. reflexivity.
  - unfold fullRow. cbn [hd tl].
    replace (len ra + 1) with (editDistance (x :: ra) [])
      by (rewrite editDistance_nil_r; unfold len; simpl length; lia).
    rewrite fillRow_rowFrom. reflexivity.
Qed.

Lemma rowFrom_nth (ra : jsstring) :
  forall rest rb,
    nth (length rest) (editDistance ra rb :: rowFrom ra rb rest) 0
    = editDistance ra (rev rest ++ rb).
Proof.
  induction rest as [|y rest IH]; intros rb; [reflexivity|].
  transitivity (editDistance ra (rev rest ++ y :: rb));
    [exact (IH (y :: rb))|].
  simpl rev. rewrite <- app_assoc. reflexivity.
Qed.

(** The matrix of the source holds the edit distance of the two strings
    in its last cell. *)
Lemma levenshteinDistance_editDistance (a b : jsstring) :
  levenshteinDistance a b = editDistance (rev a) (rev b).
Proof.
  unfold levenshteinDistance, matrix. rewrite firstRow_fullRow.
  pose proof (fillRows_nth b a []) as H. cbn [len length Z.of_nat Z.add] in H.
  rewrite H. unfold fullRow. rewrite rowFrom_nth, !app_nil_r. reflexivity.
Qed.

Lemma levenshteinDistance_sym (a b : jsstring) :
  levenshteinDistance a b = levenshteinDistance b a.
Proof.
  rewrite !levenshteinDistance_editDistance. apply editDistance_sym.
Qed.

(** ** The middle-out scan *)

Lemma Qlt_bool_iff (x y : Q) : Qlt_bool x y = true <-> (x < y)%Q.
Proof.
  unfold Qlt_bool. rewrite negb_true_iff. split.
  - intros H. apply Qnot_le_lt. intros C.
    apply Qle_bool_iff in C. congruence.
  - intros H. destruct (Qle_bool y x) eqn:E; trivial.
    apply Qle_bool_iff in E. exfalso. exact (Qlt_not_le _ _ H E).
Qed.

Lemma Qlt_bool_false (x y : Q) : Qlt_bool x y = false <-> (y <= x)%Q.
Proof.
  unfold Qlt_bool. rewrite negb_false_iff. apply Qle_bool_iff.
Qed.

(** [Math.floor((lo + hi) / 2)]. *)
Lemma midPoint_bounds (lo hi : Z) :
  2 * midPoint lo hi <= lo + hi < 2 * midPoint lo hi + 2.
Proof.
  unfold midPoint. pose proof (Z.div_mod (lo + hi) 2).
  pose proof (Z.mod_pos_bound (lo + hi) 2). lia.
Qed.

Section ProbeOrder.

Variable searchLines : list jsstring.
Variable lo hi : Z.

Let rmax := hi - len searchLines.

Lemma scanFuel_remaining :
  scanFuel searchLines lo hi
  = remaining searchLines lo hi (midPoint lo hi) (midPoint lo hi + 1).
Proof. unfold scanFuel, remaining. f_equal. lia. Qed.

Lemma probeOrder_In :
  forall fuel l r j, In j (probeOrder searchLines lo hi fuel l r) ->
    lo <= j <= l \/ r <= j <= rmax.
Proof.
  unfold rmax.
  induction fuel as [|fuel IH]; intros l r j; cbn [probeOrder];
    destruct (Z.leb_spec lo l); cbn [orb app];
    destruct (Z.leb_spec r (hi - len searchLines)); cbn [app In];
    try tauto;
    intros Hin;
    repeat match type of Hin with _ \/ _ => destruct Hin as [Hin | Hin] end;
    try lia; apply IH in Hin; lia.
Qed.

Lemma probeOrder_complete :
  forall fuel l r j, (remaining searchLines lo hi l r <= fuel)%nat ->
    lo <= j <= l \/ r <= j <= rmax ->
    In j (probeOrder searchLines lo hi fuel l r).
Proof.
  unfold rmax, remaining.
  induction fuel as [|fuel IH]; intros l r j Hfuel Hj; cbn [probeOrder];
    destruct (Z.leb_spec lo l); cbn [orb app];
    destruct (Z.leb_spec r (hi - len searchLines)); cbn [app In];
    try lia.
  - destruct (Z.eq_dec l j); [tauto|]. destruct (Z.eq_dec r j); [tauto|].
    right; right. apply IH; lia.
  - destruct (Z.eq_dec l j); [tauto|]. right. apply IH; lia.
  - destruct (Z.eq_dec r j); [tauto|]. right. apply IH; lia.
Qed.

(** The candidates are scored in order of their distance to [m]. *)
Lemma probeOrder_sorted (m : Z) :
  forall fuel l r, inStep searchLines lo hi m l r ->
    StronglySorted (closerTo m) (probeOrder searchLines lo hi fuel l r).
Proof.
  unfold inStep, closerTo, rmax.
  induction fuel as [|fuel IH]; intros l r (Hl & Hr & Hlr & Hrl);
    cbn [probeOrder];
    destruct (Z.leb_spec lo l); cbn [orb app];
    destruct (Z.leb_spec r (hi - len searchLines)); cbn [app];
    try apply SSorted_nil;
    repeat match goal with
    | |- StronglySorted _ (_ :: _) => apply SSorted_cons
    | |- StronglySorted _ (probeOrder _ _ _ _ _ _) => apply IH; lia
    | |- Forall _ (_ :: _) => apply Forall_cons
    | |- Forall _ (probeOrder _ _ _ _ _ _) =>
        apply Forall_forall; intros x Hx; apply probeOrder_In in Hx;
        unfold rmax in Hx
    end; lia.
Qed.

Lemma StronglySorted_middle {A} (R : A -> A -> Prop) (l1 l2 : list A) (x : A) :
  StronglySorted R (l1 ++ x :: l2) -> Forall (R x) l2.
Proof.
  induction l1 as [|y l1 IH]; cbn [app]; intros H;
    apply StronglySorted_inv in H; destruct H as [H1 H2]; auto.
Qed.

(** The scan probes the starts from the window start up to the
    midpoint, and those after the midpoint at which the whole SEARCH
    length fits before the window end. *)
Lemma probes_spec (j : Z) :
  In j (probes searchLines lo hi) <->
  lo <= j <= midPoint lo hi \/ midPoint lo hi + 1 <= j <= rmax.
Proof.
  unfold probes. split.
  - apply probeOrder_In.
  - apply probeOrder_complete. rewrite scanFuel_remaining. apply le_n.
Qed.

Lemma probes_sorted : StronglySorted (closerTo (midPoint lo hi)) (probes searchLines lo hi).
Proof. apply probeOrder_sorted. unfold inStep. lia. Qed.

End ProbeOrder.

Section ScanFacts.

Variable originalLines searchLines : list jsstring.
Variable lo hi : Z.

Let step := fun (b : Best) (i : Z) => probe originalLines searchLines i b.
Let loop := scanLoop originalLines searchLines lo hi.
Let score := scoreAt originalLines searchLines.

Lemma scanBody_eq (l r : Z) (b : Best) :
  scanBody originalLines searchLines lo hi
    {| leftIndex := l; rightIndex := r; best := b |}
  = {| leftIndex := if lo <=? l then l - 1 else l;
       rightIndex := if r <=? hi - len searchLines then r + 1 else r;
       best := fold_left step
                 ((if lo <=? l then [l] else [])
                  ++ (if r <=? hi - len searchLines then [r] else [])) b |}.
Proof.
  unfold scanBody, leftInRange, rightInRange. cbn [leftIndex rightIndex best].
  destruct (lo <=? l); cbn [leftIndex rightIndex best];
    destruct (r <=? hi - len searchLines); reflexivity.
Qed.

Lemma scanLoop_eq (fuel : nat) (l r : Z) (b : Best) :
  loop fuel {| leftIndex := l; rightIndex := r; best := b |}
  = if (lo <=? l) || (r <=? hi - len searchLines) then
      match fuel with
      | O => None
      | S fuel' =>
          loop fuel'
            {| leftIndex := if lo <=? l then l - 1 else l;
               rightIndex := if r <=? hi - len searchLines then r + 1 else r;
               best := fold_left step
                         ((if lo <=? l then [l] else [])
                          ++ (if r <=? hi - len searchLines then [r] else []))
                         b |}
      end
    else Some {| leftIndex := l; rightIndex := r; best := b |}.
Proof.
  unfold loop. destruct fuel; cbn [scanLoop]; rewrite ?scanBody_eq;
    reflexivity.
Qed.

(** Enough fuel lets the loop reach its exit. *)
Lemma scanLoop_terminates :
  forall fuel l r b, (remaining searchLines lo hi l r <= fuel)%nat ->
    exists st',
      loop fuel {| leftIndex := l; rightIndex := r; best := b |} = Some st'.
Proof.
  unfold remaining.
  induction fuel as [|fuel IH]; intros l r b Hfuel;
    rewrite scanLoop_eq;
    destruct (Z.leb_spec lo l); cbn [orb];
    destruct (Z.leb_spec r (hi - len searchLines));
    try (eexists; reflexivity); try lia; apply IH; lia.
Qed.

Lemma middleOutScan_returns (b : Best) :
  exists b', middleOutScan originalLines searchLines lo hi b = Some b'.
Proof.
  unfold middleOutScan, scanStart.
  destruct (scanLoop_terminates (scanFuel searchLines lo hi)
              (midPoint lo hi) (midPoint lo hi + 1) b) as [st' E].
  - rewrite scanFuel_remaining. apply le_n.
  - unfold loop in E. rewrite E. eexists; reflexivity.
Qed.

(** The loop leaves the result of probing the candidates in turn. *)
Lemma scanLoop_fold :
  forall fuel l r b st',
    loop fuel {| leftIndex := l; rightIndex := r; best := b |} = Some st' ->
    best st' = fold_left step (probeOrder searchLines lo hi fuel l r) b.
Proof.
  induction fuel as [|fuel IH]; intros l r b st';
    rewrite scanLoop_eq; cbn [probeOrder];
    destruct ((lo <=? l) || (r <=? hi - len searchLines));
    try discriminate; try (intros [= <-]; reflexivity).
  intros E. apply IH in E. rewrite E, app_assoc, (fold_left_app _ (_ ++ _)).
  reflexivity.
Qed.

Lemma probe_cases (i : Z) (b : Best) :
  (bestMatchScore b < score i)%Q
  /\ step b i = {| matchIndex := i; bestMatchScore := score i;
                   bestMatchContent := chunkAt originalLines searchLines i |}
  \/ (score i <= bestMatchScore b)%Q /\ step b i = b.
Proof.
  unfold step, probe, score, scoreAt.
  destruct (Qlt_bool _ _) eqn:E.
  - left. apply Qlt_bool_iff in E. auto.
  - right. apply Qlt_bool_false in E. auto.
Qed.

(** Probing a list of candidates keeps the first one that reaches the
    greatest score, when that score is above the one it started with. *)
Lemma fold_probe_spec :
  forall l b,
    let b' := fold_left step l b in
    (bestMatchScore b <= bestMatchScore b')%Q
    /\ (forall j, In j l -> (score j <= bestMatchScore b')%Q)
    /\ (b' = b
        \/ exists l1 i l2,
             l = l1 ++ i :: l2
             /\ b' = {| matchIndex := i; bestMatchScore := score i;
                        bestMatchContent :=
                          chunkAt originalLines searchLines i |}
             /\ (bestMatchScore b < score i)%Q
             /\ (forall j, In j l1 -> (score j < score i)%Q)).
Proof.
  induction l as [|x l IH]; intros b; cbn [fold_left].
  - split; [apply Qle_refl|]. split; [intros j []|]. left; reflexivity.
  - specialize (IH (step b x)). cbv zeta in IH.
    destruct IH as (Hle & Hall & Hcase).
    destruct (probe_cases x b) as [[Hlt E] | [Hge E]]; rewrite E in *;
      cbn [bestMatchScore] in *.
    + split; [apply Qlt_le_weak; eapply Qlt_le_trans; eauto|].
      split; [intros j [<- | Hj]; auto|].
      right. destruct Hcase as [-> | (l1 & i & l2 & -> & -> & Hi & Hl1)].
      * exists [], x, l. repeat split; auto. intros j [].
      * exists (x :: l1), i, l2. repeat split; auto.
        -- eapply Qlt_trans; eauto.
        -- intros j [<- | Hj]; auto.
    + split; [exact Hle|].
      split; [intros j [<- | Hj]; auto; eapply Qle_trans; eauto|].
      destruct Hcase as [-> | (l1 & i & l2 & -> & -> & Hi & Hl1)];
        [left; reflexivity|].
      right. exists (x :: l1), i, l2. repeat split; auto.
      intros j [<- | Hj]; auto. eapply Qle_lt_trans; eauto.
Qed.

Lemma middleOutScan_fold (b b' : Best) :
  middleOutScan originalLines searchLines lo hi b = Some b' ->
  b' = fold_left step (probes searchLines lo hi) b.
Proof.
  unfold middleOutScan, scanStart, probes.
  destruct (scanLoop _ _ _ _ _ _) as [st'|] eqn:E; [|discriminate].
  intros [= <-]. exact (scanLoop_fold _ _ _ _ _ E).
Qed.

(** What a scan that starts without a match leaves: no candidate scored
    above zero, or the candidate nearest to the midpoint among those
    with the greatest score. *)
Lemma middleOutScan_spec (b : Best) :
  middleOutScan originalLines searchLines lo hi noMatch = Some b ->
  (forall j, In j (probes searchLines lo hi) -> (score j <= bestMatchScore b)%Q)
  /\ (b = noMatch
      \/ In (matchIndex b) (probes searchLines lo hi)
         /\ (0 < bestMatchScore b)%Q
         /\ bestMatchScore b = score (matchIndex b)
         /\ bestMatchContent b
            = chunkAt originalLines searchLines (matchIndex b)
         /\ forall j, In j (probes searchLines lo hi) -> (score j == bestMatchScore b)%Q ->
              closerTo (midPoint lo hi) (matchIndex b) j).
Proof.
  intros E. apply middleOutScan_fold in E.
  pose proof (fold_probe_spec (probes searchLines lo hi) noMatch) as H. cbv zeta in H.
  rewrite <- E in H. destruct H as (_ & Hall & Hcase).
  split; [exact Hall|].
  destruct Hcase as [-> | (l1 & i & l2 & Hsplit & -> & Hi & Hl1)];
    [left; reflexivity|].
  right. cbn [matchIndex bestMatchScore bestMatchContent] in *.
  split; [rewrite Hsplit; apply in_elt|].
  repeat split; auto.
  intros j Hj Heq. rewrite Hsplit in Hj.
  apply in_app_or in Hj. destruct Hj as [Hj | [<- | Hj]].
  - apply Hl1 in Hj. rewrite Heq in Hj. exfalso. exact (Qlt_irrefl _ Hj).
  - unfold closerTo. lia.
  - pose proof (probes_sorted searchLines lo hi) as Hs. rewrite Hsplit in Hs.
    apply StronglySorted_middle in Hs.
    rewrite Forall_forall in Hs. auto.
Qed.

End ScanFacts.

(** ** The similarity score *)

(** C6, as amended: the score does not depend on the order of its two
    arguments when both strings are empty or both are non-empty.  (An
    empty second argument scores 1 against any first argument; an empty
    first argument does not.) *)
Theorem getSimilarity_sym (a b : jsstring) :
  (a = [] <-> b = []) ->
  getSimilarity a b = getSimilarity b a.
Proof.
  intros H. unfold getSimilarity.
  destruct a as [|x a], b as [|y b]; cbn [isEmpty]; try reflexivity.
  - destruct H as [H _]. discriminate (H eq_refl).
  - destruct H as [_ H]. discriminate (H eq_refl).
  - rewrite streq_sym, levenshteinDistance_sym, Z.max_comm. reflexivity.
Qed.

(** An instance: two words of the usual example. *)
Lemma getSimilarity_sym_witness :
  getSimilarity (js "kitten") (js "sitting")
  = getSimilarity (js "sitting") (js "kitten").
Proof.
  apply getSimilarity_sym. split; intros H; vm_compute in H; discriminate H.
Defined.

(** C6, as stated, fails: an empty SEARCH scores 1 against ["a"], and
    ["a"] as SEARCH scores 0 against the empty string. *)
Lemma getSimilarity_not_sym :
  ~ (getSimilarity (js "a") (js "") == getSimilarity (js "") (js "a"))%Q.
Proof. vm_compute. discriminate. Qed.

(** ** Indentation *)


Lemma indentLine_spec (originalIndents searchIndents : list jsstring)
    (line : jsstring) :
  indentLine originalIndents searchIndents line
  = finalIndentSpec (firstOrEmpty originalIndents) (firstOrEmpty searchIndents)
      (leadingIndent line) ++ trim line.
Proof.
  unfold indentLine, finalIndentSpec. f_equal.
  set (m := firstOrEmpty originalIndents).
  set (sb := firstOrEmpty searchIndents).
  set (c := leadingIndent line).
  destruct (Z.ltb_spec (len c - len sb) 0) as [Hneg | Hpos].
  - rewrite slice_prefix by lia. f_equal. unfold len in *. lia.
  - rewrite sliceFrom_suffix by apply len_nonneg. unfold len.
    rewrite Nat2Z.id. reflexivity.
Qed.

(** When the matched region starts inside the document and SEARCH has a
    line, its first line is the original line at the match index. *)
Lemma firstIndent_matched (originalLines : list jsstring) (matchIndex n : Z) :
  0 <= matchIndex < len originalLines -> 0 < n ->
  firstIndent (slice originalLines matchIndex (matchIndex + n))
  = leadingIndent (nth (Z.to_nat matchIndex) originalLines []).
Proof.
  intros Hi Hn. unfold slice, clampIndex.
  destruct (Z.ltb_spec matchIndex 0); [lia|].
  destruct (Z.ltb_spec (matchIndex + n) 0); [lia|].
  rewrite (Z.min_l matchIndex) by lia.
  assert (Hlen : (Z.to_nat matchIndex < length originalLines)%nat)
    by (unfold len in Hi; lia).
  destruct (skipn (Z.to_nat matchIndex) originalLines) as [|x rest] eqn:E.
  - apply (f_equal (@length _)) in E. rewrite length_skipn in E.
    simpl in E. lia.
  - rewrite <- (firstn_skipn (Z.to_nat matchIndex) originalLines) at 2.
    rewrite app_nth2 by (rewrite length_firstn; lia).
    rewrite length_firstn, E.
    replace (Z.to_nat matchIndex
             - Nat.min (Z.to_nat matchIndex) (length originalLines))%nat
      with 0%nat by lia.
    destruct (Z.to_nat (Z.min (matchIndex + n) (len originalLines) - matchIndex))
      eqn:En; [lia|]. reflexivity.
Qed.


(** ** The matcher *)

Lemma truthy_spec (x : option Z) :
  truthy x = true <-> exists n, x = Some n /\ n <> 0.
Proof.
  destruct x as [n|]; cbn [truthy].
  - rewrite negb_true_iff, Z.eqb_neq. split.
    + intros H; exists n; auto.
    + intros (m & [= ->] & H); exact H.
  - split; [discriminate | intros (m & H & _); discriminate].
Qed.

(** The hinted check accepts a valid range whose score reaches the
    threshold. *)
Lemma hintedCheck_accept (self : SearchReplaceDiffStrategy)
    (originalLines searchLines : list jsstring) (startLine endLine : Z) :
  1 <= startLine <= endLine -> endLine <= len originalLines ->
  let originalChunk :=
    join [LF] (slice originalLines (startLine - 1) endLine) in
  let similarity := getSimilarity originalChunk (searchChunk searchLines) in
  (fuzzyThreshold self <= similarity)%Q ->
  hintedCheck self originalLines searchLines (Some startLine) (Some endLine)
  = HintDone {| matchIndex := startLine - 1; bestMatchScore := similarity;
                bestMatchContent := originalChunk |}
      0 (len originalLines).
Proof.
  intros Hs He originalChunk similarity Hsim. unfold hintedCheck.
  cbn [truthy numberOf].
  destruct (Z.eqb_spec startLine 0); [lia|].
  destruct (Z.eqb_spec endLine 0); [lia|]. cbn [negb andb].
  destruct (Z.ltb_spec (startLine - 1) 0); [lia|].
  destruct (Z.leb_spec (len originalLines) (endLine - 1)); [lia|].
  destruct (Z.ltb_spec (endLine - 1) (startLine - 1)); [lia|]. cbn [orb].
  replace (endLine - 1 + 1) with endLine by lia.
  fold originalChunk. fold similarity.
  apply Qle_bool_iff in Hsim. rewrite Hsim. reflexivity.
Qed.

(** The hinted check hands a valid range whose score is below the
    threshold over to the scan of the buffered window. *)
Lemma hintedCheck_reject (self : SearchReplaceDiffStrategy)
    (originalLines searchLines : list jsstring) (startLine endLine : Z) :
  1 <= startLine <= endLine -> endLine <= len originalLines ->
  (getSimilarity (join [LF] (slice originalLines (startLine - 1) endLine))
     (searchChunk searchLines) < fuzzyThreshold self)%Q ->
  hintedCheck self originalLines searchLines (Some startLine) (Some endLine)
  = HintDone noMatch
      (Z.max 0 (startLine - (bufferLines self + 1)))
      (Z.min (len originalLines) (endLine + bufferLines self)).
Proof.
  intros Hs He Hsim. unfold hintedCheck. cbn [truthy numberOf].
  destruct (Z.eqb_spec startLine 0); [lia|].
  destruct (Z.eqb_spec endLine 0); [lia|]. cbn [negb andb].
  destruct (Z.ltb_spec (startLine - 1) 0); [lia|].
  destruct (Z.leb_spec (len originalLines) (endLine - 1)); [lia|].
  destruct (Z.ltb_spec (endLine - 1) (startLine - 1)); [lia|]. cbn [orb].
  replace (endLine - 1 + 1) with endLine by lia.
  destruct (Qle_bool _ _) eqn:E; [|reflexivity].
  apply Qle_bool_iff in E. exfalso. exact (Qlt_not_le _ _ Hsim E).
Qed.

(** A range that is out of the document or inverted is refused. *)
Lemma hintedCheck_invalid (self : SearchReplaceDiffStrategy)
    (originalLines searchLines : list jsstring) (startLine endLine : Z) :
  startLine <> 0 -> endLine <> 0 ->
  startLine < 1 \/ len originalLines < endLine \/ endLine < startLine ->
  hintedCheck self originalLines searchLines (Some startLine) (Some endLine)
  = HintError (InvalidLineRange startLine endLine (len originalLines)).
Proof.
  intros Hs He Hbad. unfold hintedCheck. cbn [truthy numberOf].
  destruct (Z.eqb_spec startLine 0); [lia|].
  destruct (Z.eqb_spec endLine 0); [lia|]. cbn [negb andb].
  destruct (Z.ltb_spec (startLine - 1) 0); [reflexivity|].
  destruct (Z.leb_spec (len originalLines) (endLine - 1)); [reflexivity|].
  destruct (Z.ltb_spec (endLine - 1) (startLine - 1)); [reflexivity|]. lia.
Qed.

(** Without the two hints the scan covers the whole document. *)
Lemma hintedCheck_unhinted (self : SearchReplaceDiffStrategy)
    (originalLines searchLines : list jsstring) (startLine endLine : option Z) :
  truthy startLine && truthy endLine = false ->
  hintedCheck self originalLines searchLines startLine endLine
  = HintDone noMatch 0 (len originalLines).
Proof. intros H. unfold hintedCheck. rewrite H. reflexivity. Qed.

(** The outcomes of the hinted check. *)
Lemma hintedCheck_cases (self : SearchReplaceDiffStrategy)
    (originalLines searchLines : list jsstring) (startLine endLine : option Z) :
  let n := len originalLines in
  let s := numberOf startLine in
  let e := numberOf endLine in
  let r := hintedCheck self originalLines searchLines startLine endLine in
  (truthy startLine && truthy endLine = false /\ r = HintDone noMatch 0 n)
  \/ (truthy startLine && truthy endLine = true
      /\ ((s < 1 \/ n < e \/ e < s) /\ r = HintError (InvalidLineRange s e n)
          \/ 1 <= s <= e /\ e <= n
             /\ (exists b, r = HintDone b 0 n /\ matchIndex b = s - 1
                          /\ (fuzzyThreshold self <= bestMatchScore b)%Q)
          \/ 1 <= s <= e /\ e <= n
             /\ r = HintDone noMatch
                      (Z.max 0 (s - (bufferLines self + 1)))
                      (Z.min n (e + bufferLines self)))).
Proof.
  cbv zeta. destruct (truthy startLine && truthy endLine) eqn:T.
  - right. split; [reflexivity|].
    apply andb_true_iff in T. destruct T as [Ts Te].
    apply truthy_spec in Ts, Te.
    destruct Ts as (s & -> & Hs), Te as (e & -> & He). cbn [numberOf].
    destruct (Z_lt_le_dec s 1) as [H1 | H1];
      [left; split; [lia | apply hintedCheck_invalid; lia]|].
    destruct (Z_lt_le_dec (len originalLines) e) as [H2 | H2];
      [left; split; [lia | apply hintedCheck_invalid; lia]|].
    destruct (Z_lt_le_dec e s) as [H3 | H3];
      [left; split; [lia | apply hintedCheck_invalid; lia]|].
    right.
    destruct (Qlt_le_dec
                (getSimilarity
                   (join [LF] (slice originalLines (s - 1) e))
                   (searchChunk searchLines))
                (fuzzyThreshold self)) as [Hq | Hq].
    + right. split; [lia|]. split; [lia|]. apply hintedCheck_reject; auto; lia.
    + left. split; [lia|]. split; [lia|]. eexists. split.
      * apply hintedCheck_accept; auto; lia.
      * cbn [matchIndex bestMatchScore]. auto.
  - left. split; [reflexivity|]. apply hintedCheck_unhinted; exact T.
Qed.

(** The search always comes back with an answer. *)
Lemma findMatch_returns (self : SearchReplaceDiffStrategy)
    (originalLines searchLines : list jsstring) (startLine endLine : option Z) :
  exists r,
    findMatch self originalLines searchLines startLine endLine = Some r.
Proof.
  unfold findMatch. destruct (hintedCheck _ _ _ _ _) as [err | b lo hi].
  - eexists; reflexivity.
  - destruct (matchIndex b =? -1); [|eexists; reflexivity].
    destruct (middleOutScan_returns originalLines searchLines lo hi b)
      as [b' E].
    rewrite E. eexists; reflexivity.
Qed.

(** A search that comes back with a match index other than [-1] has it
    at or after the start of the document. *)
Lemma findMatch_index (self : SearchReplaceDiffStrategy)
    (originalLines searchLines : list jsstring) (startLine endLine : option Z)
    (b : Best) :
  findMatch self originalLines searchLines startLine endLine = Some (inr b) ->
  b = noMatch \/ 0 <= matchIndex b.
Proof.
  unfold findMatch.
  pose proof (hintedCheck_cases self originalLines searchLines
                startLine endLine) as H.
  cbv zeta in H.
  destruct H as [[_ ->] | [_ [[_ ->] | [(Hs & He & b0 & -> & Hb0 & _)
                                       | (Hs & He & ->)]]]];
    try discriminate.
  - cbn [matchIndex noMatch Z.eqb]. change (-1 =? -1) with true. cbv iota.
    destruct (middleOutScan _ _ _ _ _) as [b'|] eqn:E; [|discriminate].
    intros [= <-]. apply middleOutScan_spec in E.
    destruct E as [_ [-> | (Hin & _)]]; [left; reflexivity|].
    right. apply probes_spec in Hin. pose proof (len_nonneg originalLines).
    pose proof (midPoint_bounds 0 (len originalLines)). lia.
  - destruct (Z.eqb_spec (matchIndex b0) (-1)); [lia|].
    intros [= <-]. right. lia.
  - cbn [matchIndex noMatch]. change (-1 =? -1) with true. cbv iota.
    destruct (middleOutScan _ _ _ _ _) as [b'|] eqn:E; [|discriminate].
    intros [= <-]. apply middleOutScan_spec in E.
    destruct E as [_ [-> | (Hin & _)]]; [left; reflexivity|].
    right. apply probes_spec in Hin. pose proof (len_nonneg originalLines).
    pose proof (midPoint_bounds
                  (Z.max 0 (numberOf startLine - (bufferLines self + 1)))
                  (Z.min (len originalLines)
                     (numberOf endLine + bufferLines self))).
    lia.
Qed.

(** ** [applyDiff]: results *)

(** [applyDiff] always comes back with a result: the scan loop ends
    within the iterations it is given, and no step of the method can
    fail. *)
Lemma applyDiff_returns (self : SearchReplaceDiffStrategy)
    (originalContent diffContent : jsstring) (startLine endLine : option Z) :
  exists r,
    applyDiff self originalContent diffContent startLine endLine = Some r.
Proof.
  unfold applyDiff. destruct (patchLines diffContent) as [[sl rl]|];
    [|eexists; reflexivity].
  cbv zeta.
  destruct ((len sl =? 0) && negb (truthy startLine));
    [eexists; reflexivity|].
  destruct ((len sl =? 0) && truthy startLine && truthy endLine
            && negb (numberOf startLine =? numberOf endLine));
    [eexists; reflexivity|].
  destruct (findMatch_returns self (splitLines originalContent) sl
              startLine endLine) as [[err | b] ->].
  - eexists; reflexivity.
  - destruct ((matchIndex b =? -1) || _); eexists; reflexivity.
Qed.

(** C10: a successful [applyDiff] returns the original lines before the
    match index, then the indentation-adjusted REPLACE lines, then the
    original lines from [matchIndex + searchLines.length] on, joined with
    the line ending of the document: the lines outside the matched
    region are kept, unchanged and in order. *)
Theorem applyDiff_frame (self : SearchReplaceDiffStrategy)
    (originalContent diffContent : jsstring) (startLine endLine : option Z)
    (content : jsstring) :
  applyDiff self originalContent diffContent startLine endLine
  = Some (Success content) ->
  let originalLines := splitLines originalContent in
  exists searchLines replaceLines b,
    patchLines diffContent = Some (searchLines, replaceLines)
    /\ findMatch self originalLines searchLines startLine endLine
       = Some (inr b)
    /\ 0 <= matchIndex b
    /\ content
       = join (detectLineEnding originalContent)
           (firstn (Z.to_nat (matchIndex b)) originalLines
            ++ indentedReplaceLines originalLines searchLines replaceLines
                 (matchIndex b)
            ++ skipn (Z.to_nat (matchIndex b + len searchLines))
                 originalLines).
Proof.
  unfold applyDiff. destruct (patchLines diffContent) as [[sl rl]|];
    [|discriminate].
  cbv zeta.
  destruct ((len sl =? 0) && negb (truthy startLine)); [discriminate|].
  destruct ((len sl =? 0) && truthy startLine && truthy endLine
            && negb (numberOf startLine =? numberOf endLine)); [discriminate|].
  destruct (findMatch self (splitLines originalContent) sl startLine endLine)
    as [[err | b]|] eqn:E; try discriminate.
  destruct (Z.eqb_spec (matchIndex b) (-1)) as [Hm | Hm];
    cbn [orb]; [discriminate|].
  destruct (Qlt_bool _ _); [discriminate|].
  intros [= <-]. exists sl, rl, b.
  assert (Hi : 0 <= matchIndex b).
  { destruct (findMatch_index _ _ _ _ _ _ E) as [-> | H]; [|exact H].
    exfalso. apply Hm. reflexivity. }
  repeat split; auto. unfold splice.
  rewrite slice_prefix by exact Hi.
  rewrite sliceFrom_suffix by (pose proof (len_nonneg sl); lia).
  reflexivity.
Qed.

Lemma truthy_nonzero (x : option Z) :
  x <> Some 0 -> truthy x = match x with Some _ => true | None => false end.
Proof.
  destruct x as [n|]; cbn [truthy]; [|reflexivity].
  intros H. destruct (Z.eqb_spec n 0); [subst; congruence | reflexivity].
Qed.

(** A refused search comes from a refused hinted range. *)
Lemma findMatch_error (self : SearchReplaceDiffStrategy)
    (originalLines searchLines : list jsstring) (startLine endLine : option Z)
    (err : DiffError) :
  findMatch self originalLines searchLines startLine endLine = Some (inl err) ->
  exists s e, startLine = Some s /\ endLine = Some e
    /\ (s < 1 \/ len originalLines < e \/ e < s).
Proof.
  unfold findMatch. intros E.
  pose proof (hintedCheck_cases self originalLines searchLines
                startLine endLine) as H.
  cbv zeta in H.
  destruct H as [[_ R] | [T [[Hbad R] | [(_ & _ & b0 & R & _) | (_ & _ & R)]]]];
    rewrite R in E.
  - destruct (matchIndex noMatch =? -1); [|discriminate].
    destruct (middleOutScan _ _ _ _ _); discriminate.
  - apply andb_true_iff in T. destruct T as [Ts Te].
    apply truthy_spec in Ts, Te.
    destruct Ts as (s & -> & _), Te as (e & -> & _).
    exists s, e. auto.
  - destruct (matchIndex b0 =? -1); [|discriminate].
    destruct (middleOutScan _ _ _ _ _); discriminate.
  - destruct (matchIndex noMatch =? -1); [|discriminate].
    destruct (middleOutScan _ _ _ _ _); discriminate.
Qed.

(** The result of [applyDiff] and the failure cases go together. *)
Lemma applyDiff_cases (self : SearchReplaceDiffStrategy)
    (originalContent diffContent : jsstring) (startLine endLine : option Z) :
  startLine <> Some 0 -> endLine <> Some 0 ->
  exists r,
    applyDiff self originalContent diffContent startLine endLine = Some r
    /\ ((exists err, r = Failure err)
        /\ failureCase self originalContent diffContent startLine endLine
        \/ (exists content, r = Success content)
           /\ ~ failureCase self originalContent diffContent
                  startLine endLine).
Proof.
  intros Hs He. unfold applyDiff, failureCase.
  destruct (patchLines diffContent) as [[sl rl]|] eqn:P.
  2:{ eexists. split; [reflexivity|]. left. split; [eexists; reflexivity|].
      left; reflexivity. }
  cbv zeta. rewrite (truthy_nonzero _ Hs), (truthy_nonzero _ He).
  set (ol := splitLines originalContent).
  assert (Hyes : linesFailure self ol sl startLine endLine ->
                 Some (sl, rl) = None
                 \/ exists searchLines replaceLines,
                      Some (sl, rl) = Some (searchLines, replaceLines)
                      /\ linesFailure self ol searchLines startLine endLine)
    by (intros H; right; exists sl, rl; auto).
  destruct ((len sl =? 0)
            && negb match startLine with Some _ => true | None => false end)
    eqn:A.
  { eexists. split; [reflexivity|]. left. split; [eexists; reflexivity|].
    apply Hyes. left.
    apply andb_true_iff in A. destruct A as [A1 A2].
    apply Z.eqb_eq, len_zero_nil in A1.
    destruct startLine; [discriminate | auto]. }
  destruct ((len sl =? 0)
            && match startLine with Some _ => true | None => false end
            && match endLine with Some _ => true | None => false end
            && negb (numberOf startLine =? numberOf endLine)) eqn:B.
  { eexists. split; [reflexivity|]. left. split; [eexists; reflexivity|].
    apply Hyes. right; left.
    apply andb_true_iff in B. destruct B as [B B4].
    apply andb_true_iff in B. destruct B as [B B3].
    apply andb_true_iff in B. destruct B as [B1 B2].
    apply Z.eqb_eq, len_zero_nil in B1.
    destruct startLine as [s|]; [|discriminate].
    destruct endLine as [e|]; [|discriminate].
    cbn [numberOf] in B4. apply negb_true_iff, Z.eqb_neq in B4.
    split; [exact B1|]. exists s, e. auto. }
  destruct (findMatch_returns self ol sl startLine endLine) as [[err | b] E];
    rewrite E.
  { eexists. split; [reflexivity|]. left. split; [eexists; reflexivity|].
    apply Hyes. right; right; left. exact (findMatch_error _ _ _ _ _ _ E). }
  destruct ((matchIndex b =? -1)
            || Qlt_bool (bestMatchScore b) (fuzzyThreshold self)) eqn:D.
  { eexists. split; [reflexivity|]. left. split; [eexists; reflexivity|].
    apply Hyes. right; right; right. exists b. split; [exact E|].
    apply orb_true_iff in D. destruct D as [D | D].
    - left. apply Z.eqb_eq. exact D.
    - right. apply Qlt_bool_iff. exact D. }
  eexists. split; [reflexivity|]. right. split; [eexists; reflexivity|].
  apply orb_false_iff in D. destruct D as [D1 D2].
  apply Z.eqb_neq in D1. apply Qlt_bool_false in D2.
  intros [H | (sl' & rl' & [= <- <-] & H)]; [discriminate|].
  destruct H as [[-> ->] | [[-> (s & e & -> & -> & Hne)]
                           | [(s & e & -> & -> & Hbad) | (b' & E' & Hb')]]].
  - cbn in A. discriminate.
  - cbn in B. apply Z.eqb_neq in Hne. rewrite Hne in B. cbn in B.
    discriminate.
  - unfold findMatch in E.
    rewrite hintedCheck_invalid in E by congruence. discriminate.
  - rewrite E in E'. injection E' as <-.
    destruct Hb' as [Hb' | Hb']; [auto|]. exact (Qlt_not_le _ _ Hb' D2).
Qed.

(** C5, as amended: [applyDiff] always returns a result, and for hints
    that are absent or not zero the result is a failure exactly in the
    cases of [failureCase]; in every other case it is a success that
    carries the final content. *)
Theorem applyDiff_failure_cases (self : SearchReplaceDiffStrategy)
    (originalContent diffContent : jsstring) (startLine endLine : option Z) :
  startLine <> Some 0 -> endLine <> Some 0 ->
  exists r,
    applyDiff self originalContent diffContent startLine endLine = Some r
    /\ ((exists err, r = Failure err)
        <-> failureCase self originalContent diffContent startLine endLine)
    /\ ((exists content, r = Success content)
        <-> ~ failureCase self originalContent diffContent startLine endLine).
Proof.
  intros Hs He.
  destruct (applyDiff_cases self originalContent diffContent _ _ Hs He)
    as (r & E & [[[err ->] F] | [[content ->] F]]);
    eexists; (split; [exact E|]).
  - split; split; auto.
    + intros _. eexists; reflexivity.
    + intros [c H]. discriminate.
    + intros N. exfalso. exact (N F).
  - split; split; auto.
    + intros [err H]. discriminate.
    + intros H. exfalso. exact (F H).
    + intros _. eexists; reflexivity.
Qed.

(** An instance: the first scenario of the specification. *)
Lemma applyDiff_frame_witness :
  applyDiff defaultStrategy (js "def f():\n    return 1\n")
    (buildDiff (js "    return 1") (js "    return 2")) (Some 2) (Some 2)
  = Some (Success (js "def f():\n    return 2\n"))
  /\ exists searchLines replaceLines b,
       patchLines (buildDiff (js "    return 1") (js "    return 2"))
       = Some (searchLines, replaceLines)
       /\ findMatch defaultStrategy
            (splitLines (js "def f():\n    return 1\n")) searchLines
            (Some 2) (Some 2) = Some (inr b)
       /\ 0 <= matchIndex b
       /\ js "def f():\n    return 2\n"
          = join (detectLineEnding (js "def f():\n    return 1\n"))
              (firstn (Z.to_nat (matchIndex b))
                 (splitLines (js "def f():\n    return 1\n"))
               ++ indentedReplaceLines
                    (splitLines (js "def f():\n    return 1\n"))
                    searchLines replaceLines (matchIndex b)
               ++ skipn (Z.to_nat (matchIndex b + len searchLines))
                    (splitLines (js "def f():\n    return 1\n"))).
Proof.
  split; [vm_compute; reflexivity|].
  apply (applyDiff_frame defaultStrategy (js "def f():\n    return 1\n")
           (buildDiff (js "    return 1") (js "    return 2"))
           (Some 2) (Some 2)).
  vm_compute; reflexivity.
Defined.

(** An instance: a SEARCH line that is not in the document. *)
Lemma applyDiff_failure_cases_witness :
  exists r,
    applyDiff defaultStrategy (js "def f():\n    return 1\n")
      (buildDiff (js "    return 3") (js "    return 2")) (Some 2) (Some 2)
    = Some r
    /\ ((exists err, r = Failure err)
        <-> failureCase defaultStrategy (js "def f():\n    return 1\n")
              (buildDiff (js "    return 3") (js "    return 2"))
              (Some 2) (Some 2))
    /\ ((exists content, r = Success content)
        <-> ~ failureCase defaultStrategy (js "def f():\n    return 1\n")
                (buildDiff (js "    return 3") (js "    return 2"))
                (Some 2) (Some 2)).
Proof. apply applyDiff_failure_cases; discriminate. Defined.

(** C5, as stated, fails: with the threshold set to 0, a SEARCH line
    that scores 0 against the one line of the document makes [applyDiff]
    fail, although the diff text is well formed, no hint is given,
    SEARCH is not empty and the best score, 0, is not below the
    threshold. *)
Lemma applyDiff_fails_without_listed_case :
  applyDiff (newStrategy (Some 0%Q) None) (js "a")
    (buildDiff (js "b") (js "c")) None None
  = Some (Failure (NoSufficientMatch 0 0 (-1) []))
  /\ patchLines (buildDiff (js "b") (js "c")) = Some ([js "b"], [js "c"])
  /\ findMatch (newStrategy (Some 0%Q) None) (splitLines (js "a")) [js "b"]
       None None = Some (inr noMatch)
  /\ ~ (bestMatchScore noMatch < fuzzyThreshold (newStrategy (Some 0%Q) None))%Q.
Proof.
  repeat split; try (vm_compute; reflexivity).
  vm_compute. discriminate.
Qed.

(** ** Pure insertion *)

(** With both hints on the same line, an empty SEARCH block inserts the
    REPLACE lines before that line and removes nothing. *)
Lemma insertion_at_both_hints (self : SearchReplaceDiffStrategy)
    (originalContent diffContent : jsstring) (replaceLines : list jsstring)
    (line : Z) :
  patchLines diffContent = Some ([], replaceLines) ->
  1 <= line <= len (splitLines originalContent) ->
  (fuzzyThreshold self <= 1)%Q ->
  let originalLines := splitLines originalContent in
  applyDiff self originalContent diffContent (Some line) (Some line)
  = Some (Success
            (join (detectLineEnding originalContent)
               (firstn (Z.to_nat (line - 1)) originalLines
                ++ indentedReplaceLines originalLines [] replaceLines (line - 1)
                ++ skipn (Z.to_nat (line - 1)) originalLines))).
Proof.
  intros P Hline Hthr. cbv zeta. unfold applyDiff. rewrite P. cbv zeta.
  cbn [len length Z.of_nat Z.eqb truthy numberOf].
  destruct (Z.eqb_spec line 0); [lia|]. cbn [negb andb].
  rewrite Z.eqb_refl. cbn [negb andb].
  unfold findMatch.
  rewrite hintedCheck_accept by (cbn [searchChunk join getSimilarity isEmpty]; lia || exact Hthr).
  cbn [matchIndex bestMatchScore searchChunk join getSimilarity isEmpty].
  destruct (Z.eqb_spec (line - 1) (-1)); [lia|].
  cbn [matchIndex bestMatchScore orb].
  destruct (Z.eqb_spec (line - 1) (-1)); [lia|]. cbn [orb].
  apply Qlt_bool_false in Hthr. rewrite Hthr.
  unfold splice. rewrite slice_prefix by lia.
  rewrite sliceFrom_suffix by (cbn; lia).
  cbn [len length Z.of_nat]. rewrite Z.add_0_r. reflexivity.
Qed.

(** C7 fails on the code when only the start hint is given: with hint
    line 1 and no end hint, the empty SEARCH block is matched by the scan
    at the midpoint of the four-line document, and the REPLACE line lands
    before line 3, not before line 1. *)
Theorem insertion_with_start_hint_only :
  applyDiff defaultStrategy (js "a\nb\nc\nd") (buildDiff (js "") (js "X"))
    (Some 1) None
  = Some (Success (js "a\nb\nX\nc\nd")).
Proof. vm_compute. reflexivity. Qed.

(** ** The window of the scan *)

(** C9, as amended: when the hinted check of a valid range fails the
    threshold, and the buffer is not negative, the window of the scan
    contains the hinted range, and the scan probes the candidate at the
    hinted start whenever SEARCH has no more lines than there are from
    the hinted start to the end of the window. *)
Theorem fallback_window_contains_hint (self : SearchReplaceDiffStrategy)
    (originalLines searchLines : list jsstring) (startLine endLine : Z) :
  1 <= startLine <= endLine -> endLine <= len originalLines ->
  0 <= bufferLines self ->
  (getSimilarity (join [LF] (slice originalLines (startLine - 1) endLine))
     (searchChunk searchLines) < fuzzyThreshold self)%Q ->
  exists searchStartIndex searchEndIndex,
    hintedCheck self originalLines searchLines (Some startLine) (Some endLine)
    = HintDone noMatch searchStartIndex searchEndIndex
    /\ 0 <= searchStartIndex <= startLine - 1
    /\ endLine <= searchEndIndex <= len originalLines
    /\ (len searchLines <= searchEndIndex - (startLine - 1) ->
        In (startLine - 1)
          (probes searchLines searchStartIndex searchEndIndex)).
Proof.
  intros Hs He Hb Hsim. eexists _, _.
  split; [apply hintedCheck_reject; assumption|].
  split; [lia|]. split; [lia|].
  intros Hfit. apply probes_spec.
  pose proof (midPoint_bounds
                (Z.max 0 (startLine - (bufferLines self + 1)))
                (Z.min (len originalLines) (endLine + bufferLines self))).
  lia.
Qed.

(** An instance: hint 4-4 on five lines, with a SEARCH line that is not
    at line 4. *)
Lemma fallback_window_contains_hint_witness :
  exists searchStartIndex searchEndIndex,
    hintedCheck defaultStrategy (splitLines (js "a\nb\nc\nx\ny")) [js "y"]
      (Some 4) (Some 4)
    = HintDone noMatch searchStartIndex searchEndIndex
    /\ 0 <= searchStartIndex <= 4 - 1
    /\ 4 <= searchEndIndex <= len (splitLines (js "a\nb\nc\nx\ny"))
    /\ (len [js "y"] <= searchEndIndex - (4 - 1) ->
        In (4 - 1) (probes [js "y"] searchStartIndex searchEndIndex)).
Proof.
  apply (fallback_window_contains_hint defaultStrategy
           (splitLines (js "a\nb\nc\nx\ny")) [js "y"] 4 4).
  - lia.
  - vm_compute. discriminate.
  - vm_compute. discriminate.
  - vm_compute. reflexivity.
Defined.

(** C9, as stated, fails: with hint 4-4 on a five-line document and a
    SEARCH block of three lines, the hinted check fails, the window is
    the whole document, and the scan probes the starts 2, 1, 0 only: not
    the hinted start 3, whose candidate would score 1. *)
Lemma hinted_start_not_probed :
  hintedCheck defaultStrategy (splitLines (js "a\nb\nc\nx\ny"))
    [js "x"; js "y"; js ""] (Some 4) (Some 4)
  = HintDone noMatch 0 5
  /\ probes [js "x"; js "y"; js ""] 0 5 = [2; 1; 0]
  /\ ~ In (4 - 1) (probes [js "x"; js "y"; js ""] 0 5)
  /\ (scoreAt (splitLines (js "a\nb\nc\nx\ny")) [js "x"; js "y"; js ""] 3
      == 1)%Q.
Proof.
  repeat split; try (vm_compute; reflexivity).
  vm_compute. intros [H | [H | [H | []]]]; discriminate H.
Qed.

(** ** The order of the scan *)

(** C3, as amended: when the scan selects a candidate, that candidate
    has the greatest score of all probed candidates and, among the probed
    candidates with that score, none starts nearer to the midpoint of the
    search window, [floor((searchStartIndex + searchEndIndex) / 2)]: the
    candidates are probed in order of their distance to the midpoint, and
    a later one replaces the best only on a strictly greater score.  The
    window is the whole document when the hinted check did not run, and
    the buffered window cut to the document when it failed. *)
Theorem scan_tie_break (self : SearchReplaceDiffStrategy)
    (originalLines searchLines : list jsstring) (startLine endLine : option Z)
    (searchStartIndex searchEndIndex : Z) (b : Best) :
  hintedCheck self originalLines searchLines startLine endLine
  = HintDone noMatch searchStartIndex searchEndIndex ->
  findMatch self originalLines searchLines startLine endLine = Some (inr b) ->
  b <> noMatch ->
  let candidates := probes searchLines searchStartIndex searchEndIndex in
  let center := midPoint searchStartIndex searchEndIndex in
  In (matchIndex b) candidates
  /\ bestMatchScore b = scoreAt originalLines searchLines (matchIndex b)
  /\ forall j, In j candidates ->
       (scoreAt originalLines searchLines j <= bestMatchScore b)%Q
       /\ ((scoreAt originalLines searchLines j == bestMatchScore b)%Q ->
           Z.abs (matchIndex b - center) <= Z.abs (j - center)).
Proof.
  intros Hh E Hb. cbv zeta. unfold findMatch in E. rewrite Hh in E.
  cbn [matchIndex noMatch] in E. change (-1 =? -1) with true in E.
  cbv iota in E.
  destruct (middleOutScan _ _ _ _ _) as [b'|] eqn:S; [|discriminate].
  injection E as ->. apply middleOutScan_spec in S.
  destruct S as [Hall [-> | (Hin & _ & Hsc & _ & Hnear)]];
    [exfalso; apply Hb; reflexivity|].
  split; [exact Hin|]. split; [exact Hsc|].
  intros j Hj. split; [apply Hall; exact Hj|].
  intros Heq. exact (Hnear j Hj Heq).
Qed.

(** An instance: the six-line document of the counterexample below. *)
Lemma scan_tie_break_witness :
  In 3 (probes [js "x"] 0 6)
  /\ 1%Q = scoreAt (splitLines (js "y\nx\nq\nx\nq\nq")) [js "x"] 3
  /\ forall j, In j (probes [js "x"] 0 6) ->
       (scoreAt (splitLines (js "y\nx\nq\nx\nq\nq")) [js "x"] j <= 1)%Q
       /\ ((scoreAt (splitLines (js "y\nx\nq\nx\nq\nq")) [js "x"] j == 1)%Q ->
           Z.abs (3 - midPoint 0 6) <= Z.abs (j - midPoint 0 6)).
Proof.
  apply (scan_tie_break defaultStrategy (splitLines (js "y\nx\nq\nx\nq\nq"))
           [js "x"] (Some 1) (Some 1) 0 6
           {| matchIndex := 3; bestMatchScore := 1;
              bestMatchContent := js "x" |}).
  - vm_compute. reflexivity.
  - vm_compute. reflexivity.
  - discriminate.
Defined.

(** C3, as stated, fails: with the hint 1-1 and the default buffer, the
    window of a six-line document is the whole document and its midpoint
    is 3.  The lines at indices 1 and 3 both score 1; the scan selects
    index 3, although index 1 is nearer to the hinted index 0. *)
Lemma scan_prefers_window_center :
  findMatch defaultStrategy (splitLines (js "y\nx\nq\nx\nq\nq")) [js "x"]
    (Some 1) (Some 1)
  = Some (inr {| matchIndex := 3; bestMatchScore := 1;
                 bestMatchContent := js "x" |})
  /\ In 1 (probes [js "x"] 0 6)
  /\ (scoreAt (splitLines (js "y\nx\nq\nx\nq\nq")) [js "x"] 1
      == scoreAt (splitLines (js "y\nx\nq\nx\nq\nq")) [js "x"] 3)%Q
  /\ Z.abs (1 - (1 - 1)) < Z.abs (3 - (1 - 1)).
Proof.
  split; [vm_compute; reflexivity|].
  split; [vm_compute; tauto|].
  split; vm_compute; reflexivity.
Qed.

(** ** The scan against the exhaustive reference *)

Lemma windowStarts_spec (searchLines : list jsstring) (lo hi j : Z) :
  In j (windowStarts searchLines lo hi) <-> lo <= j <= hi - len searchLines.
Proof.
  unfold windowStarts. rewrite in_map_iff. split.
  - intros (k & <- & Hk). apply in_seq in Hk. lia.
  - intros Hj. exists (Z.to_nat (j - lo)). split; [lia|].
    apply in_seq. lia.
Qed.

(** The best score of a run of probes depends on which candidates are
    probed only. *)
Lemma fold_probe_score_le (originalLines searchLines : list jsstring)
    (l1 l2 : list Z) :
  (forall j, In j l1 -> In j l2) ->
  (bestMatchScore
     (fold_left (fun b i => probe originalLines searchLines i b) l1 noMatch)
   <= bestMatchScore
        (fold_left (fun b i => probe originalLines searchLines i b) l2 noMatch))%Q.
Proof.
  intros Hsub.
  pose proof (fold_probe_spec originalLines searchLines l1 noMatch) as H1.
  pose proof (fold_probe_spec originalLines searchLines l2 noMatch) as H2.
  cbv zeta in H1, H2.
  destruct H1 as (_ & _ & [-> | (la & i & lb & Hl1 & -> & _)]).
  - apply H2.
  - cbn [bestMatchScore]. apply H2. apply Hsub. rewrite Hl1. apply in_elt.
Qed.

(** The scan never scores less than the exhaustive reference, and scores
    the same when the SEARCH length fits between the midpoint and the end
    of the window. *)
Lemma middleOutScan_exhaustive (originalLines searchLines : list jsstring)
    (lo hi : Z) (b : Best) :
  middleOutScan originalLines searchLines lo hi noMatch = Some b ->
  (bestMatchScore (exhaustiveScanSpec originalLines searchLines lo hi)
   <= bestMatchScore b)%Q
  /\ (lo - 1 <= midPoint lo hi <= hi - len searchLines ->
      (bestMatchScore b
       == bestMatchScore (exhaustiveScanSpec originalLines searchLines lo hi))%Q).
Proof.
  intros E. apply middleOutScan_fold in E. subst b.
  unfold exhaustiveScanSpec.
  assert (Hle : (bestMatchScore
                   (fold_left (fun b i => probe originalLines searchLines i b)
                      (windowStarts searchLines lo hi) noMatch)
                 <= bestMatchScore
                      (fold_left
                         (fun b i => probe originalLines searchLines i b)
                         (probes searchLines lo hi) noMatch))%Q).
  { apply fold_probe_score_le. intros j Hj.
    apply windowStarts_spec in Hj. apply probes_spec. lia. }
  split; [exact Hle|]. intros Hmid. apply Qle_antisym; [|exact Hle].
  apply fold_probe_score_le. intros j Hj.
  apply probes_spec in Hj. apply windowStarts_spec. lia.
Qed.

(** C2 fails on the code: on the four-line document [x, y, a, b] with
    the three SEARCH lines [a, b, (empty)] and the whole document as
    window, the left side of the scan probes the start 2, where only two
    lines are left, and scores 1 there; the exhaustive reference has the
    starts 0 and 1 and its best score is 3/5. *)
Theorem middleOutScan_differs_from_exhaustive :
  middleOutScan (splitLines (js "x\ny\na\nb")) [js "a"; js "b"; js ""] 0 4
    noMatch
  = Some {| matchIndex := 2; bestMatchScore := 1;
            bestMatchContent := js "a\nb" |}
  /\ windowStarts [js "a"; js "b"; js ""] 0 4 = [0; 1]
  /\ (bestMatchScore
        (exhaustiveScanSpec (splitLines (js "x\ny\na\nb"))
           [js "a"; js "b"; js ""] 0 4)
      == 3 # 5)%Q
  /\ applyDiff defaultStrategy (js "x\ny\na\nb")
       (buildDiff (js "a\nb\n") (js "Q")) None None
     = Some (Success (js "x\ny\nQ")).
Proof. repeat split; vm_compute; reflexivity. Qed.

(** ** Line-number annotations *)

(** When one of the two blocks is not annotated on every line, both
    blocks stay as they are. *)
Lemma stripBlocks_untouched (searchContent replaceContent : jsstring) :
  everyLineHasLineNumbers searchContent = false
  \/ everyLineHasLineNumbers replaceContent = false ->
  stripBlocks searchContent replaceContent = (searchContent, replaceContent).
Proof.
  intros [H | H]; unfold stripBlocks; rewrite H;
    [|rewrite andb_false_r]; reflexivity.
Qed.

(** When both blocks are annotated on every line, both go through
    [stripLineNumbers]. *)
Lemma stripBlocks_both (searchContent replaceContent : jsstring) :
  everyLineHasLineNumbers searchContent = true ->
  everyLineHasLineNumbers replaceContent = true ->
  stripBlocks searchContent replaceContent
  = (stripLineNumbers searchContent, stripLineNumbers replaceContent).
Proof. intros Hs Hr. unfold stripBlocks. rewrite Hs, Hr. reflexivity. Qed.

Lemma takeWhile_dropWhile {A} (p : A -> bool) (l : list A) :
  takeWhile p l ++ dropWhile p l = l.
Proof.
  induction l as [|x l IH]; cbn; [reflexivity|].
  destruct (p x); cbn; [rewrite IH|]; reflexivity.
Qed.

Lemma takeWhile_all {A} (p : A -> bool) (l : list A) :
  forallb p (takeWhile p l) = true.
Proof.
  induction l as [|x l IH]; cbn; [reflexivity|].
  destruct (p x) eqn:E; cbn; [rewrite E, IH|]; reflexivity.
Qed.

(** A line that passes the test is white space, digits, white space, a
    pipe and a rest that does not start with a pipe; the digits and the
    second white space are not empty. *)
Lemma afterAnnotation_shape (line rest : jsstring) :
  afterAnnotation line = Some rest ->
  exists ws ds ws',
    line = ws ++ ds ++ ws' ++ PIPE :: rest
    /\ forallb is_space ws = true
    /\ ds <> [] /\ forallb is_digit ds = true
    /\ ws' <> [] /\ forallb is_space ws' = true
    /\ stripPrefix [PIPE] rest = None.
Proof.
  unfold afterAnnotation.
  set (s1 := dropWhile is_space line).
  set (s2 := dropWhile is_digit s1).
  destruct (takeWhile is_digit s1) as [|d ds] eqn:Ed; [discriminate|].
  destruct (takeWhile is_space s2) as [|w ws'] eqn:Ew; [discriminate|].
  destruct (dropWhile is_space s2) as [|c r] eqn:Er; [discriminate|].
  destruct (N.eqb_spec c PIPE) as [-> | Hc]; [|discriminate].
  intros H.
  assert (Hrest : r = rest /\ stripPrefix [PIPE] rest = None).
  { destruct r as [|d' r']; [injection H as <-; auto|].
    destruct (d' =? PIPE)%N eqn:Ep; [discriminate|]. injection H as <-.
    split; [reflexivity|]. cbn [stripPrefix]. rewrite N.eqb_sym, Ep.
    reflexivity. }
  destruct Hrest as [-> Hnp].
  exists (takeWhile is_space line), (d :: ds), (w :: ws').
  split.
  - rewrite <- Er, <- Ew, takeWhile_dropWhile. unfold s2.
    rewrite <- Ed, takeWhile_dropWhile. unfold s1.
    rewrite takeWhile_dropWhile. reflexivity.
  - split; [apply takeWhile_all|]. split; [discriminate|].
    split; [rewrite <- Ed; apply takeWhile_all|]. split; [discriminate|].
    split; [rewrite <- Ew; apply takeWhile_all | exact Hnp].
Qed.

(** On a line that passes the test and has no line terminator after the
    pipe, [stripLine] leaves what follows the pipe, less one leading
    white space character. *)
Lemma stripLine_annotated (line rest : jsstring) :
  afterAnnotation line = Some rest ->
  existsb is_line_terminator rest = false ->
  stripLine line
  = match rest with
    | c :: rest' => if is_space c then rest' else rest
    | [] => rest
    end.
Proof.
  intros E Hlt. unfold stripLine, dotStarToEnd. rewrite E.
  destruct rest as [|c rest']; [reflexivity|].
  cbn [existsb] in Hlt. apply orb_false_iff in Hlt. destruct Hlt as [Hc Hr].
  destruct (is_space c); [rewrite Hr; reflexivity|].
  cbn [existsb]. rewrite Hc, Hr. reflexivity.
Qed.

(** C8 fails on the code: the one line of the SEARCH block,
    [1 | a<CR>b], and the one line of the REPLACE block, [1 | c], both
    pass the annotation test, but the line with the carriage return
    keeps its annotation, and the patch that should turn the document
    [a<CR>b] into [c] is refused for a score of 3/7. *)
Theorem annotation_kept_after_carriage_return :
  everyLineHasLineNumbers (js "1 | a\rb") = true
  /\ everyLineHasLineNumbers (js "1 | c") = true
  /\ stripBlocks (js "1 | a\rb") (js "1 | c") = (js "1 | a\rb", js "c")
  /\ applyDiff defaultStrategy (js "a\rb")
       (buildDiff (js "1 | a\rb") (js "1 | c")) None None
     = Some (Failure (NoSufficientMatch (3 # 7) 1 0 (js "a\rb")))
  /\ applyDiff defaultStrategy (js "a\rb")
       (buildDiff (js "a\rb") (js "c")) None None
     = Some (Success (js "c")).
Proof. repeat split; vm_compute; reflexivity. Qed.

(** ** Splitting and joining lines *)

Lemma list_ind2 {A} (P : list A -> Prop) :
  P [] -> (forall c, P [c]) ->
  (forall c d l, P l -> P (d :: l) -> P (c :: d :: l)) ->
  forall l, P l.
Proof.
  intros H0 H1 H2 l.
  assert (H : P l /\ forall c, P (c :: l)).
  { induction l as [|d l [IH1 IH2]]; split; auto. }
  apply H.
Qed.

Lemma splitLines_cons (c : char) (s : jsstring) :
  splitLines (c :: s)
  = if (c =? LF)%N then [] :: splitLines s
    else match s with
         | d :: s' =>
             if ((c =? CR) && (d =? LF))%N then [] :: splitLines s'
             else consLine c (splitLines s)
         | [] => [[c]]
         end.
Proof. destruct s; reflexivity. Qed.

Lemma splitLines_nonempty (s : jsstring) : splitLines s <> [].
Proof.
  induction s as [|c | c d s IH1 IH2] using list_ind2; try discriminate.
  - cbn. destruct (c =? LF)%N; discriminate.
  - rewrite splitLines_cons. destruct (c =? LF)%N; [discriminate|].
    destruct ((c =? CR) && (d =? LF))%N; [discriminate|].
    destruct (splitLines (d :: s)); [contradiction | discriminate].
Qed.

Lemma join_cons (sep l : jsstring) (ls : list jsstring) :
  ls <> [] -> join sep (l :: ls) = l ++ sep ++ join sep ls.
Proof. destruct ls; [contradiction | reflexivity]. Qed.

Lemma join_consLine (sep : jsstring) (c : char) (ls : list jsstring) :
  ls <> [] -> join sep (consLine c ls) = c :: join sep ls.
Proof.
  destruct ls as [|l [|l' ls]]; [contradiction | reflexivity..].
Qed.

Lemma collapseFrom_cons (inRun : bool) (c : char) (s : jsstring) :
  collapseFrom inRun (c :: s)
  = if is_space c
    then (if inRun then collapseFrom true s else SPACE :: collapseFrom true s)
    else c :: collapseFrom false s.
Proof. reflexivity. Qed.

(** Splitting a text and joining the lines with line feeds gives the
    text back, up to the white space that [getSimilarity] collapses:
    only a carriage return in front of a line feed is lost. *)
Lemma collapseFrom_rejoin (s : jsstring) :
  forall inRun,
    collapseFrom inRun (join [LF] (splitLines s)) = collapseFrom inRun s.
Proof.
  induction s as [|c | c d s IH1 IH2] using list_ind2; intros inRun.
  - reflexivity.
  - cbn [splitLines]. destruct (c =? LF)%N eqn:E; [|reflexivity].
    apply N.eqb_eq in E. subst c. reflexivity.
  - rewrite splitLines_cons.
    destruct (N.eqb_spec c LF) as [-> | Hc].
    + rewrite join_cons by apply splitLines_nonempty.
      change ([] ++ [LF] ++ join [LF] (splitLines (d :: s)))
        with (LF :: join [LF] (splitLines (d :: s))).
      rewrite !(collapseFrom_cons _ LF), !IH2. reflexivity.
    + destruct (N.eqb_spec c CR) as [-> | Hcr];
        [destruct (N.eqb_spec d LF) as [-> | Hd]|]; cbn [andb].
      * rewrite join_cons by apply splitLines_nonempty.
        change ([] ++ [LF] ++ join [LF] (splitLines s))
          with (LF :: join [LF] (splitLines s)).
        rewrite (collapseFrom_cons _ LF), (collapseFrom_cons _ CR),
          (collapseFrom_cons _ LF), !IH1.
        change (is_space LF) with true. change (is_space CR) with true.
        destruct inRun; reflexivity.
      * rewrite join_consLine by apply splitLines_nonempty.
        rewrite !(collapseFrom_cons _ CR), !IH2. reflexivity.
      * rewrite join_consLine by apply splitLines_nonempty.
        rewrite !(collapseFrom_cons _ c), !IH2. reflexivity.
Qed.

Lemma normalizeStr_rejoin (s : jsstring) :
  normalizeStr (join [LF] (splitLines s)) = normalizeStr s.
Proof.
  unfold normalizeStr, collapseSpaces. rewrite collapseFrom_rejoin.
  reflexivity.
Qed.

(** A text scores 1 against its own lines joined with line feeds. *)
Lemma getSimilarity_rejoin (s : jsstring) :
  getSimilarity s (join [LF] (splitLines s)) = 1%Q.
Proof.
  unfold getSimilarity. destruct (isEmpty _); [reflexivity|].
  rewrite normalizeStr_rejoin, streq_refl. reflexivity.
Qed.

(** The lines of a text hold no line feed. *)
Lemma splitLines_no_LF (s : jsstring) :
  Forall (fun line => ~ In LF line) (splitLines s).
Proof.
  induction s as [|c | c d s IH1 IH2] using list_ind2.
  - repeat constructor. intros [].
  - cbn [splitLines]. destruct (N.eqb_spec c LF).
    + repeat constructor; intros [].
    + repeat constructor. intros [H | []]. congruence.
  - rewrite splitLines_cons. destruct (N.eqb_spec c LF) as [-> | Hc].
    + constructor; [intros [] | exact IH2].
    + destruct ((c =? CR) && (d =? LF))%N.
      * constructor; [intros [] | exact IH1].
      * destruct (splitLines (d :: s)) as [|l ls]; cbn [consLine].
        -- repeat constructor. intros [H | []]. congruence.
        -- apply Forall_cons_iff in IH2. destruct IH2 as [Hl Hls].
           constructor; [|exact Hls]. intros [H | H]; [congruence | auto].
Qed.

Lemma splitLines_single (l : jsstring) : ~ In LF l -> splitLines l = [l].
Proof.
  induction l as [|c l IH]; intros H; [reflexivity|].
  rewrite splitLines_cons.
  destruct (N.eqb_spec c LF) as [-> | Hc]; [exfalso; apply H; left; reflexivity|].
  destruct l as [|d l]; [reflexivity|].
  destruct (N.eqb_spec d LF) as [-> | Hd];
    [exfalso; apply H; right; left; reflexivity|].
  rewrite andb_false_r. rewrite IH by (intros H'; apply H; right; exact H').
  reflexivity.
Qed.

Lemma splitLines_line_length (l x : jsstring) :
  ~ In LF l ->
  length (splitLines (l ++ LF :: x)) = S (length (splitLines x)).
Proof.
  induction l as [|c l IH]; intros H.
  - reflexivity.
  - cbn [app]. rewrite splitLines_cons.
    destruct (N.eqb_spec c LF) as [-> | Hc];
      [exfalso; apply H; left; reflexivity|].
    assert (Hl : ~ In LF l) by (intros H'; apply H; right; exact H').
    destruct l as [|d l]; cbn [app].
    + change (LF =? LF)%N with true. rewrite andb_true_r.
      destruct (c =? CR)%N; [reflexivity|].
      cbn [splitLines N.eqb LF Pos.eqb consLine length]. reflexivity.
    + destruct (N.eqb_spec d LF) as [-> | Hd];
        [exfalso; apply Hl; left; reflexivity|].
      rewrite andb_false_r. specialize (IH Hl). cbn [app] in IH.
      destruct (splitLines (d :: l ++ LF :: x)); [discriminate|].
      cbn [consLine length] in *. exact IH.
Qed.

(** Lines without line feeds, joined and split again, are as many as
    before. *)
Lemma length_splitLines_join (ls : list jsstring) :
  ls <> [] -> Forall (fun line => ~ In LF line) ls ->
  length (splitLines (join [LF] ls)) = length ls.
Proof.
  induction ls as [|l ls IH]; intros Hne Hall; [contradiction|].
  apply Forall_cons_iff in Hall. destruct Hall as [Hl Hls].
  destruct ls as [|l' ls].
  - cbn [join]. rewrite splitLines_single by exact Hl. reflexivity.
  - rewrite join_cons by discriminate. cbn [app].
    rewrite splitLines_line_length by exact Hl.
    rewrite IH by (auto; discriminate). reflexivity.
Qed.

Lemma slice_incl {A} (l : list A) (i j : Z) (x : A) :
  In x (slice l i j) -> In x l.
Proof.
  unfold slice. intros H.
  rewrite <- (firstn_skipn (Z.to_nat (clampIndex (len l) i)) l).
  apply in_or_app. right.
  rewrite <- (firstn_skipn
                (Z.to_nat (clampIndex (len l) j - clampIndex (len l) i))
                (skipn _ l)).
  apply in_or_app. left. exact H.
Qed.

Lemma slice_length {A} (l : list A) (i j : Z) :
  0 <= i -> i <= j -> j <= len l -> len (slice l i j) = j - i.
Proof.
  intros Hi Hij Hj. rewrite slice_in_range by assumption.
  unfold len in *. rewrite length_firstn, length_skipn. lia.
Qed.

(** ** The marker grammar on a built patch *)

Lemma stripPrefix_app (p s : jsstring) : stripPrefix p (p ++ s) = Some s.
Proof.
  induction p as [|x p IH]; cbn [app stripPrefix]; [reflexivity|].
  rewrite N.eqb_refl. exact IH.
Qed.

Lemma stripPrefix_refl (p : jsstring) : stripPrefix p p = Some [].
Proof.
  rewrite <- (app_nil_r p) at 2. apply stripPrefix_app.
Qed.

Lemma stripPrefix_Some (p s y : jsstring) :
  stripPrefix p s = Some y -> s = p ++ y.
Proof.
  revert s; induction p as [|x p IH]; intros s; cbn [stripPrefix app].
  - intros [= ->]. reflexivity.
  - destruct s as [|z s]; [discriminate|].
    destruct (N.eqb_spec x z) as [-> | _]; [|discriminate].
    intros H. rewrite (IH _ H). reflexivity.
Qed.

(** A literal found in front of [q ++ c :: t] lies within [q] when [c]
    does not occur in the literal. *)
Lemma stripPrefix_before (p : jsstring) (c : char) :
  ~ In c p ->
  forall q t y, stripPrefix p (q ++ c :: t) = Some y ->
    exists q', q = p ++ q' /\ y = q' ++ c :: t.
Proof.
  induction p as [|x p IH]; intros Hc q t y; cbn [stripPrefix].
  - intros [= <-]. exists q. auto.
  - destruct q as [|z q]; cbn [app].
    + destruct (N.eqb_spec x c) as [-> | _]; [|discriminate].
      exfalso. apply Hc. left; reflexivity.
    + destruct (N.eqb_spec x z) as [-> | _]; [|discriminate].
      intros H. apply IH in H; [|intros H'; apply Hc; right; exact H'].
      destruct H as (q' & -> & ->). exists q'. auto.
Qed.

Lemma includes_here (needle s : jsstring) : includes needle (needle ++ s) = true.
Proof.
  destruct (needle ++ s) eqn:E; cbn [includes]; rewrite <- E, stripPrefix_app;
    reflexivity.
Qed.

Lemma includes_later (needle p s : jsstring) :
  includes needle s = true -> includes needle (p ++ s) = true.
Proof.
  intros H. induction p as [|c p IH]; [exact H|].
  cbn [app includes]. destruct (stripPrefix needle (c :: p ++ s)); auto.
Qed.

Lemma lazyAny_here {R} (k : jsstring -> jsstring -> option R)
    (acc s : jsstring) (r : R) :
  k (rev acc) s = Some r -> lazyAny k acc s = Some r.
Proof. intros H. destruct s; cbn [lazyAny]; rewrite H; reflexivity. Qed.

(** The lazy capture passes over a text at no point of which the rest
    of the expression matches. *)
Lemma lazyAny_skip {R} (k : jsstring -> jsstring -> option R) :
  forall pre acc post,
    (forall p1 p2, pre = p1 ++ p2 -> p2 <> [] ->
       k (rev acc ++ p1) (p2 ++ post) = None) ->
    lazyAny k acc (pre ++ post) = lazyAny k (rev pre ++ acc) post.
Proof.
  induction pre as [|c pre IH]; intros acc post H; [reflexivity|].
  assert (H0 : k (rev acc) (c :: pre ++ post) = None).
  { rewrite <- (app_nil_r (rev acc)).
    apply (H [] (c :: pre) eq_refl). discriminate. }
  cbn [app lazyAny]. rewrite H0, IH.
  - cbn [rev]. rewrite <- app_assoc. reflexivity.
  - intros p1 p2 -> Hp2. cbn [rev]. rewrite <- app_assoc.
    exact (H (c :: p1) p2 eq_refl Hp2).
Qed.

Lemma optNewline_none {R} (k : jsstring -> option R) (s : jsstring) :
  k s = None -> (forall s', s = LF :: s' -> k s' = None) ->
  optNewline k s = None.
Proof.
  intros H1 H2. unfold optNewline. destruct s as [|c s']; [exact H1|].
  destruct (N.eqb_spec c LF) as [-> | _]; [|exact H1].
  rewrite (H2 s' eq_refl). exact H1.
Qed.

(** The separator in front of the rest of a SEARCH text and its line
    feed is an occurrence of the separator in that text. *)
Lemma separator_in_search (p q t y : jsstring) :
  stripPrefix SEPARATOR (q ++ LF :: t) = Some y ->
  includes SEPARATOR ((p ++ q) ++ [LF]) = true.
Proof.
  intros H. rewrite <- app_assoc. apply includes_later.
  change SEPARATOR with (js "=======" ++ [LF]) in H.
  apply stripPrefix_Some in H. rewrite <- app_assoc in H.
  assert (H' : stripPrefix (js "=======") (q ++ LF :: t)
               = Some ([LF] ++ y))
    by (rewrite H; apply stripPrefix_app).
  apply stripPrefix_before in H';
    [|vm_compute; intros Hin;
      repeat (destruct Hin as [Hin | Hin]; [discriminate Hin|]);
      exact Hin].
  destruct H' as (q' & -> & Hy).
  destruct q' as [|c q']; cbn [app] in Hy.
  - replace ((js "=======" ++ []) ++ [LF]) with (SEPARATOR ++ [])
      by reflexivity.
    apply includes_here.
  - injection Hy as <- _.
    replace ((js "=======" ++ LF :: q') ++ [LF])
      with (SEPARATOR ++ q' ++ [LF]) by reflexivity.
    apply includes_here.
Qed.

(** The end marker in front of the rest of a REPLACE text and its line
    feed lies in that text. *)
Lemma marker_in_replace (p q t y : jsstring) :
  stripPrefix REPLACE_MARKER (q ++ LF :: t) = Some y ->
  includes REPLACE_MARKER (p ++ q) = true.
Proof.
  intros H. apply includes_later.
  apply stripPrefix_before in H;
    [|vm_compute; intros Hin;
      repeat (destruct Hin as [Hin | Hin]; [discriminate Hin|]);
      exact Hin].
  destruct H as (q' & -> & _). apply includes_here.
Qed.

(** A patch built around a SEARCH text that, with its line feed, does
    not hold the separator and a REPLACE text that does not hold the end
    marker reads back as these two texts. *)
Lemma parseDiff_buildDiff (search replace : jsstring) :
  includes SEPARATOR (search ++ [LF]) = false ->
  includes REPLACE_MARKER replace = false ->
  parseDiff (buildDiff search replace) = Some (search, replace).
Proof.
  intros Hsep Hend.
  assert (Hreplace :
            lazyAny (fun replaceContent =>
                       optNewline (lit REPLACE_MARKER
                         (fun _ => Some (search, replaceContent))))
              [] (replace ++ LF :: REPLACE_MARKER)
            = Some (search, replace)).
  { rewrite lazyAny_skip.
    - apply lazyAny_here. rewrite app_nil_r, rev_involutive.
      cbn [optNewline]. change (LF =? LF)%N with true. cbv iota.
      unfold lit. rewrite stripPrefix_refl. reflexivity.
    - intros p1 p2 -> Hp2. apply optNewline_none; unfold lit.
      + destruct (stripPrefix _ _) eqn:E; [|reflexivity].
        apply (marker_in_replace p1) in E. congruence.
      + intros s' Hs'. destruct p2 as [|c p2]; [contradiction|].
        injection Hs' as -> <-.
        destruct (stripPrefix _ _) eqn:E; [|reflexivity].
        apply (marker_in_replace (p1 ++ [LF])) in E.
        rewrite <- app_assoc in E. cbn [app] in E. congruence. }
  unfold parseDiff, buildDiff.
  assert (Hblock :
            matchBlockAt
              (SEARCH_MARKER ++ search ++ [LF] ++ SEPARATOR ++ replace
               ++ [LF] ++ REPLACE_MARKER)
            = Some (search, replace)).
  { unfold matchBlockAt, lit at 1. rewrite stripPrefix_app.
    rewrite lazyAny_skip.
    - apply lazyAny_here. rewrite app_nil_r, rev_involutive.
      cbn [app optNewline]. change (LF =? LF)%N with true. cbv iota.
      unfold lit at 1. rewrite stripPrefix_app.
      cbn [app] in Hreplace. rewrite Hreplace. reflexivity.
    - intros p1 p2 -> Hp2. apply optNewline_none; unfold lit at 1.
      + cbn [app]. destruct (stripPrefix _ _) eqn:E; [|reflexivity].
        apply (separator_in_search p1) in E. congruence.
      + intros s' Hs'. destruct p2 as [|c p2]; [contradiction|].
        injection Hs' as -> <-. cbn [app].
        destruct (stripPrefix _ _) eqn:E; [|reflexivity].
        apply (separator_in_search (p1 ++ [LF])) in E.
        rewrite <- (app_assoc p1) in E. cbn [app] in E. congruence. }
  destruct (SEARCH_MARKER ++ _) eqn:E; cbn [searchFrom]; rewrite Hblock;
    reflexivity.
Qed.

(** ** Round trip on exact hints *)

(** C1, as amended: take the lines of a document at a valid range as
    SEARCH block and build the patch around them, where the extracted
    text is not empty, holds no line that ends with the separator
    [=======], and is not, together with the REPLACE text, annotated with
    line numbers on every line, and the REPLACE text does not hold the
    end marker.  With a threshold of 1.0 (or less) and the range as
    hint, [applyDiff] succeeds, and its result is the lines of the
    document before the range, the indentation-adjusted REPLACE lines,
    and the lines of the document after the range, joined with the line
    ending of the document. *)
Theorem exact_hint_round_trip (self : SearchReplaceDiffStrategy)
    (document replacement : jsstring) (startLine endLine : Z) :
  (fuzzyThreshold self <= 1)%Q ->
  let originalLines := splitLines document in
  1 <= startLine <= endLine -> endLine <= len originalLines ->
  let extracted := join [LF] (slice originalLines (startLine - 1) endLine) in
  extracted <> [] ->
  includes SEPARATOR (extracted ++ [LF]) = false ->
  includes REPLACE_MARKER replacement = false ->
  everyLineHasLineNumbers extracted && everyLineHasLineNumbers replacement
  = false ->
  applyDiff self document (buildDiff extracted replacement)
    (Some startLine) (Some endLine)
  = Some (Success
            (join (detectLineEnding document)
               (firstn (Z.to_nat (startLine - 1)) originalLines
                ++ indentedReplaceLines originalLines (splitLines extracted)
                     (blockLines replacement) (startLine - 1)
                ++ skipn (Z.to_nat endLine) originalLines))).
Proof.
  intros Hthr originalLines Hs He extracted Hne Hsep Hend Hann.
  pose proof (parseDiff_buildDiff extracted replacement Hsep Hend) as Hparse.
  assert (Hlen : len (splitLines extracted) = endLine - startLine + 1).
  { unfold len, extracted. rewrite length_splitLines_join.
    - pose proof (slice_length originalLines (startLine - 1) endLine) as H.
      unfold len in H. unfold len in He. lia.
    - intros E.
      pose proof (slice_length originalLines (startLine - 1) endLine) as H.
      rewrite E in H. cbn in H. lia.
    - apply Forall_forall. intros line Hin. apply slice_incl in Hin.
      pose proof (splitLines_no_LF document) as Hall.
      rewrite Forall_forall in Hall. exact (Hall line Hin). }
  assert (Hblock : blockLines extracted = splitLines extracted).
  { unfold blockLines. destruct extracted; [contradiction | reflexivity]. }
  unfold applyDiff, patchLines. rewrite Hparse. unfold stripBlocks.
  rewrite Hann, Hblock. cbv zeta. fold originalLines.
  destruct (Z.eqb_spec (len (splitLines extracted)) 0) as [H0 | _]; [lia|].
  cbn [andb]. unfold findMatch.
  pose proof (hintedCheck_accept self originalLines (splitLines extracted)
                startLine endLine Hs He) as H.
  cbv zeta in H. fold extracted in H. unfold searchChunk in H.
  rewrite getSimilarity_rejoin in H. rewrite (H Hthr).
  cbn [matchIndex bestMatchScore].
  destruct (Z.eqb_spec (startLine - 1) (-1)); [lia|]. cbn [orb].
  cbn [matchIndex bestMatchScore].
  destruct (Z.eqb_spec (startLine - 1) (-1)); [lia|]. cbn [orb].
  apply Qlt_bool_false in Hthr. rewrite Hthr.
  unfold splice. rewrite slice_prefix by lia.
  rewrite sliceFrom_suffix by lia.
  replace (startLine - 1 + len (splitLines extracted)) with endLine by lia.
  reflexivity.
Qed.

(** An instance: the first scenario of the specification. *)
Lemma exact_hint_round_trip_witness :
  applyDiff defaultStrategy (js "def f():\n    return 1\n")
    (buildDiff (js "    return 1") (js "    return 2")) (Some 2) (Some 2)
  = Some (Success
            (join (detectLineEnding (js "def f():\n    return 1\n"))
               (firstn (Z.to_nat (2 - 1))
                  (splitLines (js "def f():\n    return 1\n"))
                ++ indentedReplaceLines
                     (splitLines (js "def f():\n    return 1\n"))
                     (splitLines (js "    return 1"))
                     (blockLines (js "    return 2")) (2 - 1)
                ++ skipn (Z.to_nat 2)
                     (splitLines (js "def f():\n    return 1\n"))))).
Proof.
  apply (exact_hint_round_trip defaultStrategy
           (js "def f():\n    return 1\n") (js "    return 2") 2 2).
  - vm_compute. discriminate.
  - lia.
  - vm_compute. discriminate.
  - vm_compute. discriminate.
  - vm_compute. reflexivity.
  - vm_compute. reflexivity.
  - vm_compute. reflexivity.
Defined.

(** C1, as stated, fails in four ways.  A REPLACE line loses its
    trailing white space.  Blocks that are annotated on every line are
    stripped, and the document lines that look like annotations are not
    found.  An extracted empty line makes an empty SEARCH block, which
    inserts and leaves the empty line in place.  A document line that
    is the separator of the marker grammar ends the SEARCH block
    early. *)
Lemma exact_hint_round_trip_fails :
  (join [LF] (slice (splitLines (js "a")) (1 - 1) 1) = js "a"
   /\ applyDiff defaultStrategy (js "a") (buildDiff (js "a") (js "b "))
        (Some 1) (Some 1) = Some (Success (js "b"))
   /\ js "b" <> js "b ")
  /\ (join [LF] (slice (splitLines (js "1 | a")) (1 - 1) 1) = js "1 | a"
      /\ applyDiff defaultStrategy (js "1 | a")
           (buildDiff (js "1 | a") (js "2 | b")) (Some 1) (Some 1)
         = Some (Failure (NoSufficientMatch (1 # 5) 1 0 (js "1 | a"))))
  /\ (join [LF] (slice (splitLines (js "")) (1 - 1) 1) = js ""
      /\ applyDiff defaultStrategy (js "") (buildDiff (js "") (js "x"))
           (Some 1) (Some 1) = Some (Success (js "x\n")))
  /\ (join [LF] (slice (splitLines (js "=======")) (1 - 1) 1) = js "======="
      /\ applyDiff defaultStrategy (js "=======")
           (buildDiff (js "=======") (js "x")) (Some 1) (Some 1)
         = Some (Success (js "=======\nx\n======="))).
Proof.
  repeat split; try (vm_compute; reflexivity).
  vm_compute. discriminate.
Qed.

(** * Further properties of the engine *)

(** ** The edit distance of the matrix *)

Lemma len_rev {A} (l : list A) : len (rev l) = len l.
Proof. unfold len. rewrite length_rev. reflexivity. Qed.

Lemma len_cons {A} (x : A) (l : list A) : len (x :: l) = len l + 1.
Proof. unfold len. cbn [length]. lia. Qed.

(** [levenshteinDistance] obeys the recurrence its two loops write into
    the matrix: against an empty string it is the length of the other
    string, and for two strings with one more character each it is the
    distance of the strings without them when the two characters are
    equal, and otherwise one more than the least of the three
    neighbouring cells. *)
Theorem levenshteinDistance_recurrence (a b : jsstring) (x y : char) :
  levenshteinDistance [] b = len b
  /\ levenshteinDistance a [] = len a
  /\ levenshteinDistance (a ++ [x]) (b ++ [y])
     = if (x =? y)%N then levenshteinDistance a b
       else Z.min (Z.min (levenshteinDistance a b + 1)
                         (levenshteinDistance (a ++ [x]) b + 1))
                  (levenshteinDistance a (b ++ [y]) + 1).
Proof.
  rewrite !levenshteinDistance_editDistance, !rev_app_distr.
  cbn [rev app]. rewrite editDistance_nil_l, editDistance_nil_r, !len_rev.
  split; [reflexivity|]. split; [reflexivity|]. apply editDistance_cons.
Qed.

Lemma editDistance_bounds (a b : jsstring) :
  Z.abs (len a - len b) <= editDistance a b <= Z.max (len a) (len b).
Proof.
  revert b; induction a as [|x a IHa]; intros b.
  - rewrite editDistance_nil_l. pose proof (len_nonneg b).
    change (len (@nil char)) with 0. lia.
  - induction b as [|y b IHb].
    + rewrite editDistance_nil_r. pose proof (len_nonneg (x :: a)).
      change (len (@nil char)) with 0. lia.
    + rewrite editDistance_cons.
      pose proof (IHa b). pose proof (IHa (y :: b)).
      rewrite !len_cons in *.
      pose proof (len_nonneg a). pose proof (len_nonneg b).
      destruct (x =? y)%N; lia.
Qed.

Lemma editDistance_refl (a : jsstring) : editDistance a a = 0.
Proof.
  induction a as [|x a IH]; [reflexivity|].
  rewrite editDistance_cons, N.eqb_refl. exact IH.
Qed.

Lemma editDistance_zero (a b : jsstring) : editDistance a b = 0 -> a = b.
Proof.
  revert b; induction a as [|x a IHa]; intros b.
  - rewrite editDistance_nil_l. intros H. symmetry. apply len_zero_nil, H.
  - induction b as [|y b IHb].
    + rewrite editDistance_nil_r. intros H. apply len_zero_nil, H.
    + rewrite editDistance_cons.
      pose proof (editDistance_bounds a b) as B1.
      pose proof (editDistance_bounds (x :: a) b) as B2.
      pose proof (editDistance_bounds a (y :: b)) as B3.
      destruct (N.eqb_spec x y) as [-> | _]; intros Hz.
      * rewrite (IHa b Hz). reflexivity.
      * lia.
Qed.

Lemma levenshtein_between (a b : jsstring) :
  Z.abs (len a - len b) <= levenshteinDistance a b <= Z.max (len a) (len b).
Proof.
  rewrite levenshteinDistance_editDistance.
  pose proof (editDistance_bounds (rev a) (rev b)) as H.
  rewrite !len_rev in H. exact H.
Qed.

(** The distance lies between the difference of the two lengths and the
    greater of the two lengths. *)
Theorem levenshteinDistance_bounds (a b : jsstring) :
  Z.abs (len a - len b) <= levenshteinDistance a b <= Z.max (len a) (len b).
Proof. exact (levenshtein_between a b). Qed.

Lemma levenshtein_zero (a b : jsstring) :
  levenshteinDistance a b = 0 <-> a = b.
Proof.
  rewrite levenshteinDistance_editDistance. split.
  - intros H. apply editDistance_zero in H.
    rewrite <- (rev_involutive a), <- (rev_involutive b), H. reflexivity.
  - intros ->. apply editDistance_refl.
Qed.

(** The distance is zero for equal strings only. *)
Theorem levenshteinDistance_zero_iff (a b : jsstring) :
  levenshteinDistance a b = 0 <-> a = b.
Proof. exact (levenshtein_zero a b). Qed.

(** ** The range of the similarity score *)

Lemma score_formula_range (d m : Z) :
  0 <= d <= m -> 0 < m ->
  (0 <= 1 - inject_Z d / inject_Z m <= 1)%Q
  /\ (0 < d -> (1 - inject_Z d / inject_Z m < 1)%Q).
Proof.
  intros Hd Hm. destruct m as [|p|p]; try lia.
  unfold Qle, Qlt, Qminus, Qplus, Qopp, Qdiv, Qmult, inject_Z.
  cbn [Qinv Qnum Qden Pos.mul]. rewrite ?Z.mul_1_r, ?Pos.mul_1_l.
  repeat split; lia.
Qed.

Lemma similarity_between (original search : jsstring) :
  (0 <= getSimilarity original search <= 1)%Q.
Proof.
  unfold getSimilarity.
  destruct (isEmpty search); [split; discriminate|].
  destruct (streq _ _) eqn:E; [split; discriminate|].
  set (a := normalizeStr original) in *. set (b := normalizeStr search) in *.
  pose proof (levenshtein_between a b) as Hb.
  assert (Hne : a <> b) by (intros H; apply streq_eq in H; congruence).
  assert (Hpos : 0 < Z.max (len a) (len b)).
  { pose proof (len_nonneg a) as Ha. pose proof (len_nonneg b) as Hb'.
    destruct (Z.eq_dec (len a) 0) as [Ha0 | Ha0]; [|lia].
    destruct (Z.eq_dec (len b) 0) as [Hb0 | Hb0]; [|lia].
    exfalso. apply Hne.
    rewrite (len_zero_nil _ Ha0), (len_zero_nil _ Hb0). reflexivity. }
  apply score_formula_range; lia.
Qed.

(** The score lies between 0 and 1. *)
Theorem getSimilarity_range (original search : jsstring) :
  (0 <= getSimilarity original search <= 1)%Q.
Proof. exact (similarity_between original search). Qed.

Lemma similarity_one (original search : jsstring) :
  (getSimilarity original search == 1)%Q
  <-> search = [] \/ normalizeStr original = normalizeStr search.
Proof.
  unfold getSimilarity. destruct search as [|c search]; cbn [isEmpty].
  - split; [auto | reflexivity].
  - destruct (streq _ _) eqn:E.
    + apply streq_eq in E. split; [auto | reflexivity].
    + set (a := normalizeStr original) in *.
      set (b := normalizeStr (c :: search)) in *.
      assert (Hne : a <> b) by (intros H; apply streq_eq in H; congruence).
      pose proof (levenshtein_between a b) as Hb.
      assert (Hd : 0 < levenshteinDistance a b).
      { destruct (Z.eq_dec (levenshteinDistance a b) 0) as [H0 | H0];
          [apply levenshtein_zero in H0; contradiction | lia]. }
      split.
      * intros H. exfalso.
        assert (Hpos : 0 < Z.max (len a) (len b)) by lia.
        destruct (score_formula_range (levenshteinDistance a b)
                    (Z.max (len a) (len b))) as [_ Hlt]; try lia.
        specialize (Hlt Hd). rewrite H in Hlt. exact (Qlt_irrefl _ Hlt).
      * intros [H | H]; [discriminate | contradiction].
Qed.

(** The score is 1 exactly for an empty SEARCH text and for two texts
    that are equal once their white space is normalised. *)
Theorem getSimilarity_one_iff (original search : jsstring) :
  (getSimilarity original search == 1)%Q
  <-> search = [] \/ normalizeStr original = normalizeStr search.
Proof. exact (similarity_one original search). Qed.

(** ** What a match at the default threshold means *)

(** The candidate a search comes back with carries its own score and
    text: the text of the hinted range when the hinted check accepted
    it, and the chunk at the match index when the scan found it. *)
Lemma findMatch_result (self : SearchReplaceDiffStrategy)
    (originalLines searchLines : list jsstring) (startLine endLine : option Z)
    (b : Best) :
  findMatch self originalLines searchLines startLine endLine = Some (inr b) ->
  b = noMatch
  \/ bestMatchScore b
     = getSimilarity (bestMatchContent b) (searchChunk searchLines)
     /\ (bestMatchContent b = chunkAt originalLines searchLines (matchIndex b)
         \/ exists s e,
              startLine = Some s /\ endLine = Some e
              /\ 1 <= s <= e /\ e <= len originalLines
              /\ matchIndex b = s - 1
              /\ bestMatchContent b
                 = join [LF] (slice originalLines (s - 1) e)).
Proof.
  unfold findMatch. intros E.
  assert (Hscan : forall lo hi,
             (if matchIndex noMatch =? -1
              then option_map inr
                     (middleOutScan originalLines searchLines lo hi noMatch)
              else Some (inr noMatch)) = Some (@inr DiffError Best b) ->
             b = noMatch
             \/ bestMatchScore b
                = getSimilarity (bestMatchContent b) (searchChunk searchLines)
                /\ (bestMatchContent b
                    = chunkAt originalLines searchLines (matchIndex b)
                    \/ exists s e,
                         startLine = Some s /\ endLine = Some e
                         /\ 1 <= s <= e /\ e <= len originalLines
                         /\ matchIndex b = s - 1
                         /\ bestMatchContent b
                            = join [LF] (slice originalLines (s - 1) e))).
  { intros lo hi. cbn [matchIndex noMatch]. change (-1 =? -1) with true.
    cbv iota. destruct (middleOutScan _ _ _ _ _) as [b'|] eqn:S;
      [|discriminate].
    intros [= <-]. apply middleOutScan_spec in S.
    destruct S as [_ [-> | (_ & _ & Hsc & Hct & _)]]; [left; reflexivity|].
    right. split; [|left; exact Hct]. rewrite Hsc, Hct. reflexivity. }
  destruct (truthy startLine && truthy endLine) eqn:T.
  2:{ rewrite hintedCheck_unhinted in E by exact T. exact (Hscan _ _ E). }
  apply andb_true_iff in T. destruct T as [Ts Te].
  apply truthy_spec in Ts, Te.
  destruct Ts as (s & -> & Hs), Te as (e & -> & He).
  destruct (Z_lt_le_dec s 1) as [H1 | H1];
    [rewrite hintedCheck_invalid in E by lia; discriminate|].
  destruct (Z_lt_le_dec (len originalLines) e) as [H2 | H2];
    [rewrite hintedCheck_invalid in E by lia; discriminate|].
  destruct (Z_lt_le_dec e s) as [H3 | H3];
    [rewrite hintedCheck_invalid in E by lia; discriminate|].
  destruct (Qlt_le_dec
              (getSimilarity (join [LF] (slice originalLines (s - 1) e))
                 (searchChunk searchLines))
              (fuzzyThreshold self)) as [Hq | Hq].
  - rewrite hintedCheck_reject in E by (auto; lia). exact (Hscan _ _ E).
  - rewrite hintedCheck_accept in E by (auto; lia).
    cbn [matchIndex] in E.
    destruct (Z.eqb_spec (s - 1) (-1)); [lia|].
    injection E as <-. right. cbn [bestMatchScore bestMatchContent matchIndex].
    split; [reflexivity|]. right. exists s, e. repeat split; auto; lia.
Qed.

(** With a threshold of 1.0 or more, [applyDiff] only succeeds on a
    text that is the SEARCH text up to white space (or with an empty
    SEARCH text): the text it compared, the chunk at the match index
    after a scan and the hinted range after the hinted check, has the
    normalised form of the SEARCH lines. *)
Theorem applyDiff_success_is_exact (self : SearchReplaceDiffStrategy)
    (originalContent diffContent : jsstring) (startLine endLine : option Z)
    (content : jsstring) :
  (1 <= fuzzyThreshold self)%Q ->
  applyDiff self originalContent diffContent startLine endLine
  = Some (Success content) ->
  exists searchLines replaceLines b,
    patchLines diffContent = Some (searchLines, replaceLines)
    /\ findMatch self (splitLines originalContent) searchLines
         startLine endLine = Some (inr b)
    /\ (searchChunk searchLines = []
        \/ normalizeStr (bestMatchContent b)
           = normalizeStr (searchChunk searchLines))
    /\ (bestMatchContent b
        = chunkAt (splitLines originalContent) searchLines (matchIndex b)
        \/ exists s e,
             startLine = Some s /\ endLine = Some e
             /\ matchIndex b = s - 1
             /\ bestMatchContent b
                = join [LF] (slice (splitLines originalContent) (s - 1) e)).
Proof.
  intros Hthr. unfold applyDiff.
  destruct (patchLines diffContent) as [[sl rl]|]; [|discriminate].
  cbv zeta.
  destruct ((len sl =? 0) && negb (truthy startLine)); [discriminate|].
  destruct ((len sl =? 0) && truthy startLine && truthy endLine
            && negb (numberOf startLine =? numberOf endLine));
    [discriminate|].
  destruct (findMatch self (splitLines originalContent) sl startLine endLine)
    as [[err | b]|] eqn:E; try discriminate.
  destruct (Z.eqb_spec (matchIndex b) (-1)) as [Hm | Hm];
    cbn [orb]; [discriminate|].
  destruct (Qlt_bool _ _) eqn:Q; [discriminate|]. intros _.
  apply Qlt_bool_false in Q.
  exists sl, rl, b. split; [reflexivity|]. split; [exact E|].
  destruct (findMatch_result _ _ _ _ _ _ E)
    as [-> | (Hsc & Hct)]; [exfalso; apply Hm; reflexivity|].
  split.
  - apply similarity_one. rewrite <- Hsc. apply Qle_antisym.
    + rewrite Hsc. apply similarity_between.
    + eapply Qle_trans; eauto.
  - destruct Hct as [Hct | (s & e & -> & -> & _ & _ & Hmi & Hct)];
      [left; exact Hct|].
    right. exists s, e. auto.
Qed.

(** An instance: the first scenario of the specification. *)
Lemma applyDiff_success_is_exact_witness :
  exists searchLines replaceLines b,
    patchLines (buildDiff (js "    return 1") (js "    return 2"))
    = Some (searchLines, replaceLines)
    /\ findMatch defaultStrategy
         (splitLines (js "def f():\n    return 1\n")) searchLines
         (Some 2) (Some 2) = Some (inr b)
    /\ (searchChunk searchLines = []
        \/ normalizeStr (bestMatchContent b)
           = normalizeStr (searchChunk searchLines))
    /\ (bestMatchContent b
        = chunkAt (splitLines (js "def f():\n    return 1\n")) searchLines
            (matchIndex b)
        \/ exists s e,
             Some 2 = Some s /\ Some 2 = Some e
             /\ matchIndex b = s - 1
             /\ bestMatchContent b
                = join [LF]
                    (slice (splitLines (js "def f():\n    return 1\n"))
                       (s - 1) e)).
Proof.
  apply (applyDiff_success_is_exact defaultStrategy
           (js "def f():\n    return 1\n")
           (buildDiff (js "    return 1") (js "    return 2"))
           (Some 2) (Some 2) (js "def f():\n    return 2\n")).
  - vm_compute. discriminate.
  - vm_compute. reflexivity.
Defined.

Lemma getSimilarity_self (s : jsstring) : getSimilarity s s = 1%Q.
Proof.
  unfold getSimilarity. destruct (isEmpty s); [reflexivity|].
  rewrite streq_refl. reflexivity.
Qed.

(** When the two hints are not both given, a document that holds the
    SEARCH lines as they are, at some place where they fit, is always
    patched: the scan reaches that place or a place that scores as
    well. *)
Theorem applyDiff_finds_verbatim_lines (self : SearchReplaceDiffStrategy)
    (originalContent diffContent : jsstring) (startLine endLine : option Z)
    (searchLines replaceLines : list jsstring) (j : Z) :
  (fuzzyThreshold self <= 1)%Q ->
  patchLines diffContent = Some (searchLines, replaceLines) ->
  searchLines <> [] ->
  truthy startLine && truthy endLine = false ->
  0 <= j -> j + len searchLines <= len (splitLines originalContent) ->
  slice (splitLines originalContent) j (j + len searchLines) = searchLines ->
  exists content,
    applyDiff self originalContent diffContent startLine endLine
    = Some (Success content).
Proof.
  intros Hthr P Hne T Hj Hfit Hat. unfold applyDiff. rewrite P. cbv zeta.
  set (ol := splitLines originalContent) in *.
  assert (Hlen : 0 < len searchLines).
  { destruct searchLines; [contradiction|]. rewrite len_cons.
    pose proof (len_nonneg searchLines). lia. }
  destruct (Z.eqb_spec (len searchLines) 0); [lia|]. cbn [andb].
  unfold findMatch. rewrite hintedCheck_unhinted by exact T.
  cbn [matchIndex noMatch]. change (-1 =? -1) with true. cbv iota.
  destruct (middleOutScan_returns ol searchLines 0 (len ol) noMatch)
    as [b S].
  rewrite S. cbn [option_map].
  pose proof (middleOutScan_spec _ _ _ _ _ S) as [Hall Hb].
  assert (Hin : In j (probes searchLines 0 (len ol))).
  { apply probes_spec. pose proof (midPoint_bounds 0 (len ol)). lia. }
  assert (Hone : (1 <= bestMatchScore b)%Q).
  { specialize (Hall j Hin). unfold scoreAt, chunkAt, searchChunk in Hall.
    rewrite Hat, getSimilarity_self in Hall. exact Hall. }
  assert (Hidx : matchIndex b <> -1).
  { destruct Hb as [-> | (Hp & _)].
    - exfalso. cbn [bestMatchScore noMatch] in Hone.
      revert Hone. vm_compute. intros H. apply H. reflexivity.
    - apply probes_spec in Hp. pose proof (midPoint_bounds 0 (len ol)).
      pose proof (len_nonneg ol). lia. }
  destruct (Z.eqb_spec (matchIndex b) (-1)); [contradiction|]. cbn [orb].
  assert (Hq : Qlt_bool (bestMatchScore b) (fuzzyThreshold self) = false)
    by (apply Qlt_bool_false; eapply Qle_trans; eauto).
  rewrite Hq. eexists; reflexivity.
Qed.

(** An instance: a line of a three-line document, without hints. *)
Lemma applyDiff_finds_verbatim_lines_witness :
  exists content,
    applyDiff defaultStrategy (js "a\nb\nc") (buildDiff (js "c") (js "d"))
      None None
    = Some (Success content).
Proof.
  apply (applyDiff_finds_verbatim_lines defaultStrategy (js "a\nb\nc")
           (buildDiff (js "c") (js "d")) None None [js "c"] [js "d"] 2).
  - vm_compute. discriminate.
  - vm_compute. reflexivity.
  - discriminate.
  - reflexivity.
  - lia.
  - vm_compute. discriminate.
  - vm_compute. reflexivity.
Defined.

(** ** How the splicer moves a line *)

Lemma slice_prefix_length {A} (l : list A) (j : Z) :
  0 <= j -> len (slice l 0 j) = Z.min j (len l).
Proof.
  intros Hj. rewrite slice_prefix by exact Hj. unfold len.
  rewrite length_firstn. lia.
Qed.

Lemma sliceFrom_length {A} (l : list A) (i : Z) :
  0 <= i -> len (sliceFrom l i) = Z.max 0 (len l - i).
Proof.
  intros Hi. rewrite sliceFrom_suffix by exact Hi. unfold len.
  rewrite length_skipn. lia.
Qed.

(** The indent of an output line is the indent of the REPLACE line
    shifted by the drift between the matched text and the SEARCH text,
    never below nothing: it has
    [max(0, matchedIndent.length + currentIndent.length - searchBaseIndent.length)]
    characters, and the trimmed line follows it. *)
Theorem indentLine_length (originalIndents searchIndents : list jsstring)
    (line : jsstring) :
  len (indentLine originalIndents searchIndents line)
  = Z.max 0 (len (firstOrEmpty originalIndents) + len (leadingIndent line)
             - len (firstOrEmpty searchIndents))
    + len (trim line).
Proof.
  unfold indentLine. rewrite len_app. f_equal.
  set (m := firstOrEmpty originalIndents).
  set (sb := firstOrEmpty searchIndents).
  set (c := leadingIndent line).
  pose proof (len_nonneg m). pose proof (len_nonneg sb).
  pose proof (len_nonneg c).
  destruct (Z.ltb_spec (len c - len sb) 0).
  - rewrite slice_prefix_length by lia. lia.
  - rewrite len_app, sliceFrom_length by lia. lia.
Qed.

Lemma dropWhile_length {A} (p : A -> bool) (l : list A) :
  (length (dropWhile p l) <= length l)%nat.
Proof.
  induction l as [|x l IH]; cbn; [lia|]. destruct (p x); cbn; lia.
Qed.

Lemma dropWhile_same_length {A} (p : A -> bool) (l : list A) :
  length (dropWhile p l) = length l -> dropWhile p l = l.
Proof.
  destruct l as [|x l]; cbn; [reflexivity|].
  destruct (p x); [|reflexivity].
  pose proof (dropWhile_length p l). lia.
Qed.

(** A text that [trim] leaves as it is does not start with white
    space. *)
Lemma trim_fixed_start (body : jsstring) :
  trim body = body -> dropWhile is_space body = body.
Proof.
  intros H. apply dropWhile_same_length.
  apply (f_equal (@length _)) in H. unfold trim, trimEnd, trimStart in H.
  rewrite length_rev in H.
  pose proof (dropWhile_length is_space (rev (dropWhile is_space body))) as H1.
  rewrite length_rev in H1.
  pose proof (dropWhile_length is_space body). lia.
Qed.

Lemma is_indent_space (c : char) : is_indent c = true -> is_space c = true.
Proof.
  unfold is_indent. intros H. apply orb_true_iff in H.
  destruct H as [H | H]; apply N.eqb_eq in H; subst c; reflexivity.
Qed.

Lemma dropWhile_app_all {A} (p : A -> bool) (l1 l2 : list A) :
  forallb p l1 = true -> dropWhile p (l1 ++ l2) = dropWhile p l2.
Proof.
  induction l1 as [|x l1 IH]; cbn; [reflexivity|].
  intros H. apply andb_true_iff in H. destruct H as [Hx Hl].
  rewrite Hx. apply IH, Hl.
Qed.

Lemma takeWhile_app_stop {A} (p : A -> bool) (l1 l2 : list A) :
  forallb p l1 = true -> takeWhile p l2 = [] ->
  takeWhile p (l1 ++ l2) = l1.
Proof.
  induction l1 as [|x l1 IH]; cbn; [auto|].
  intros H H2. apply andb_true_iff in H. destruct H as [Hx Hl].
  rewrite Hx, IH; auto.
Qed.

Lemma forallb_indent_space (ind : jsstring) :
  forallb is_indent ind = true -> forallb is_space ind = true.
Proof.
  induction ind as [|c ind IH]; cbn; [reflexivity|].
  intros H. apply andb_true_iff in H. destruct H as [Hc Hi].
  rewrite (is_indent_space _ Hc), IH; auto.
Qed.

(** A line made of tabs and spaces followed by a text that [trim]
    leaves as it is: its indent and its trimmed content are these two
    parts. *)
Lemma indented_line_parts (ind body : jsstring) :
  forallb is_indent ind = true -> trim body = body ->
  leadingIndent (ind ++ body) = ind /\ trim (ind ++ body) = body.
Proof.
  intros Hind Hbody. pose proof (trim_fixed_start body Hbody) as Hstart.
  split.
  - unfold leadingIndent. apply takeWhile_app_stop; [exact Hind|].
    destruct body as [|c body]; [reflexivity|]. cbn in Hstart |- *.
    destruct (is_indent c) eqn:E; [|reflexivity].
    rewrite (is_indent_space _ E) in Hstart.
    pose proof (dropWhile_length is_space body) as H.
    rewrite Hstart in H. cbn in H. lia.
  - unfold trim, trimStart.
    rewrite dropWhile_app_all by (apply forallb_indent_space; exact Hind).
    unfold trim, trimStart in Hbody. rewrite Hstart in *. exact Hbody.
Qed.

(** When the matched text is indented as the SEARCH text is, a REPLACE
    line without trailing white space, whose indent of tabs and spaces
    extends that indentation or is the beginning of it, is put into the
    document as it is. *)
Theorem indentLine_verbatim (originalIndents searchIndents : list jsstring)
    (ind body : jsstring) :
  firstOrEmpty originalIndents = firstOrEmpty searchIndents ->
  forallb is_indent ind = true -> trim body = body ->
  (firstn (length (firstOrEmpty searchIndents)) ind
   = firstOrEmpty searchIndents
   \/ firstn (length ind) (firstOrEmpty searchIndents) = ind) ->
  indentLine originalIndents searchIndents (ind ++ body) = ind ++ body.
Proof.
  intros Hsame Hind Hbody Hprefix.
  rewrite indentLine_spec, Hsame.
  destruct (indented_line_parts ind body Hind Hbody) as [-> ->].
  f_equal. unfold finalIndentSpec.
  remember (firstOrEmpty searchIndents) as sb eqn:Esb. clear Esb Hsame.
  destruct (Z.ltb_spec (len ind - len sb) 0) as [Hneg | Hpos];
    unfold len in *.
  - destruct Hprefix as [Hp | Hp].
    + apply (f_equal (@length _)) in Hp. rewrite length_firstn in Hp. lia.
    + replace (length sb - Z.to_nat (Z.abs (Z.of_nat (length ind)
                                            - Z.of_nat (length sb))))%nat
        with (length ind) by lia.
      exact Hp.
  - destruct Hprefix as [Hp | Hp].
    + rewrite <- Hp at 1. apply firstn_skipn.
    + assert (Hl : (length sb <= length ind)%nat) by lia.
      rewrite firstn_all2 in Hp by exact Hl. subst sb.
      rewrite skipn_all, app_nil_r. reflexivity.
Qed.


(** ** Lines and line endings of a document *)

Lemma includes_cons_false (needle : jsstring) (c : char) (s : jsstring) :
  includes needle (c :: s) = false ->
  stripPrefix needle (c :: s) = None /\ includes needle s = false.
Proof.
  cbn [includes]. destruct (stripPrefix needle (c :: s)); [discriminate|].
  auto.
Qed.

Lemma join_LF_splitLines (s : jsstring) :
  includes CRLF s = false -> join [LF] (splitLines s) = s.
Proof.
  induction s as [|c | c d s IH1 IH2] using list_ind2; intros H.
  - reflexivity.
  - cbn [splitLines]. destruct (N.eqb_spec c LF) as [-> | _]; reflexivity.
  - apply includes_cons_false in H. destruct H as [Hhere Hrest].
    rewrite splitLines_cons. destruct (N.eqb_spec c LF) as [-> | Hc].
    + rewrite join_cons by apply splitLines_nonempty.
      rewrite (IH2 Hrest). reflexivity.
    + destruct ((c =? CR) && (d =? LF))%N eqn:E.
      * exfalso. apply andb_true_iff in E. destruct E as [E1 E2].
        apply N.eqb_eq in E1, E2. subst c d. discriminate Hhere.
      * rewrite join_consLine by apply splitLines_nonempty.
        rewrite (IH2 Hrest). reflexivity.
Qed.

Lemma bareLFFrom_other (afterCr : bool) (c : char) (s : jsstring) :
  c <> LF -> bareLFFrom afterCr (c :: s) = bareLFFrom false (c :: s).
Proof.
  intros Hc. cbn [bareLFFrom].
  destruct (N.eqb_spec c LF); [contradiction | reflexivity].
Qed.

Lemma join_CRLF_splitLines (s : jsstring) :
  bareLF s = false -> join CRLF (splitLines s) = s.
Proof.
  unfold bareLF.
  induction s as [|c | c d s IH1 IH2] using list_ind2; intros H.
  - reflexivity.
  - cbn [splitLines]. destruct (N.eqb_spec c LF) as [-> | _];
      [discriminate H | reflexivity].
  - rewrite splitLines_cons. cbn [bareLFFrom] in H.
    destruct (N.eqb_spec c LF) as [-> | Hc]; [discriminate H|].
    destruct (N.eqb_spec d LF) as [-> | Hd].
    + destruct (N.eqb_spec c CR) as [-> | Hcr]; [|discriminate H].
      cbn [negb orb andb] in *.
      rewrite join_cons by apply splitLines_nonempty.
      rewrite (IH1 H). reflexivity.
    + rewrite andb_false_r.
      rewrite join_consLine by apply splitLines_nonempty.
      rewrite IH2; [reflexivity|].
      cbn [bareLFFrom]. destruct (N.eqb_spec d LF); [contradiction|].
      exact H.
Qed.

(** A document whose line endings are all of one kind, line feeds that
    never follow a carriage return or line feeds that always do, is the
    join of its lines with the line ending that [applyDiff] detects. *)
Theorem document_lines_round_trip (document : jsstring) :
  includes CRLF document = false \/ bareLF document = false ->
  join (detectLineEnding document) (splitLines document) = document.
Proof.
  intros H. unfold detectLineEnding.
  destruct (includes CRLF document) eqn:E.
  - destruct H as [H | H]; [discriminate|].
    apply join_CRLF_splitLines, H.
  - apply join_LF_splitLines, E.
Qed.

(** An instance: a document with carriage returns before its line
    feeds. *)
Lemma document_lines_round_trip_witness :
  join (detectLineEnding (js "a\r\n\r\nb\r\n"))
    (splitLines (js "a\r\n\r\nb\r\n"))
  = js "a\r\n\r\nb\r\n".
Proof.
  apply document_lines_round_trip. right. vm_compute. reflexivity.
Defined.

(** An instance: a line indented further than the matched text. *)
Lemma indentLine_verbatim_witness :
  indentLine [js "  "] [js "  "] (js "    " ++ js "return 2;")
  = js "    " ++ js "return 2;".
Proof.
  apply indentLine_verbatim.
  - reflexivity.
  - vm_compute. reflexivity.
  - vm_compute. reflexivity.
  - left. vm_compute. reflexivity.
Defined.

(** ** The annotation test *)

Ltac char_cases :=
  repeat match goal with
  | |- context [(?a <=? ?b)%N] => destruct (N.leb_spec a b)
  | |- context [(?a =? ?b)%N] => destruct (N.eqb_spec a b)
  end;
  cbn [andb orb negb]; try reflexivity; try lia.

Lemma digit_not_space (c : char) : is_digit c = true -> is_space c = false.
Proof.
  unfold is_digit. rewrite andb_true_iff, !N.leb_le. intros [H1 H2].
  unfold is_space. char_cases.
Qed.

Lemma space_not_digit (c : char) : is_space c = true -> is_digit c = false.
Proof.
  intros H. destruct (is_digit c) eqn:E; [|reflexivity].
  apply digit_not_space in E. congruence.
Qed.

Lemma dropWhile_stop {A} (p : A -> bool) (x : A) (l : list A) :
  p x = false -> dropWhile p (x :: l) = x :: l.
Proof. intros H. cbn. rewrite H. reflexivity. Qed.

Lemma takeWhile_stop {A} (p : A -> bool) (x : A) (l : list A) :
  p x = false -> takeWhile p (x :: l) = [].
Proof. intros H. cbn. rewrite H. reflexivity. Qed.

(** A line of the annotated shape passes the test, which leaves what
    follows the pipe. *)
Lemma afterAnnotation_complete (ws ds ws' rest : jsstring) :
  forallb is_space ws = true ->
  ds <> [] -> forallb is_digit ds = true ->
  ws' <> [] -> forallb is_space ws' = true ->
  stripPrefix [PIPE] rest = None ->
  afterAnnotation (ws ++ ds ++ ws' ++ PIPE :: rest) = Some rest.
Proof.
  intros Hws Hne Hds Hne' Hws' Hrest.
  destruct ds as [|d ds]; [contradiction|].
  destruct ws' as [|w ws']; [contradiction|].
  assert (Hd : is_digit d = true)
    by (cbn in Hds; apply andb_true_iff in Hds; tauto).
  assert (Hw : is_space w = true)
    by (cbn in Hws'; apply andb_true_iff in Hws'; tauto).
  unfold afterAnnotation.
  rewrite dropWhile_app_all by exact Hws.
  change ((d :: ds) ++ (w :: ws') ++ PIPE :: rest)
    with (d :: ds ++ (w :: ws') ++ PIPE :: rest).
  rewrite dropWhile_stop by (apply digit_not_space; exact Hd).
  change (d :: ds ++ (w :: ws') ++ PIPE :: rest)
    with ((d :: ds) ++ (w :: ws') ++ PIPE :: rest).
  rewrite takeWhile_app_stop;
    [|exact Hds | apply takeWhile_stop, space_not_digit; exact Hw].
  rewrite dropWhile_app_all by exact Hds.
  change ((w :: ws') ++ PIPE :: rest) with (w :: ws' ++ PIPE :: rest).
  rewrite dropWhile_stop by (apply space_not_digit; exact Hw).
  change (w :: ws' ++ PIPE :: rest) with ((w :: ws') ++ PIPE :: rest).
  rewrite takeWhile_app_stop;
    [|exact Hws' | apply takeWhile_stop; reflexivity].
  rewrite dropWhile_app_all by exact Hws'.
  rewrite dropWhile_stop by reflexivity.
  rewrite N.eqb_refl.
  destruct rest as [|r rest]; [reflexivity|].
  cbn [stripPrefix] in Hrest. rewrite N.eqb_sym.
  destruct (PIPE =? r)%N; [discriminate | reflexivity].
Qed.

(** A line passes the annotation test exactly when it is white space
    (maybe none), one or more digits, one or more white space
    characters, a pipe, and a rest that does not start with a pipe. *)
Theorem hasLineNumber_iff (line : jsstring) :
  hasLineNumber line = true
  <-> exists ws ds ws' rest,
        line = ws ++ ds ++ ws' ++ PIPE :: rest
        /\ forallb is_space ws = true
        /\ ds <> [] /\ forallb is_digit ds = true
        /\ ws' <> [] /\ forallb is_space ws' = true
        /\ stripPrefix [PIPE] rest = None.
Proof.
  unfold hasLineNumber. split.
  - destruct (afterAnnotation line) as [rest|] eqn:E; [|discriminate].
    intros _. apply afterAnnotation_shape in E.
    destruct E as (ws & ds & ws' & H). exists ws, ds, ws', rest. exact H.
  - intros (ws & ds & ws' & rest & -> & H1 & H2 & H3 & H4 & H5 & H6).
    rewrite afterAnnotation_complete by assumption. reflexivity.
Qed.

(** ** Numbered lines *)

Lemma uint_digits (d : Decimal.uint) :
  forallb is_digit
    (map N_of_ascii (list_ascii_of_string (NilEmpty.string_of_uint d)))
  = true.
Proof. induction d; cbn; auto. Qed.

(** The decimal form of a number that is not negative: digits, and at
    least one. *)
Lemma numberToString_digits (n : Z) :
  0 <= n ->
  numberToString n <> [] /\ forallb is_digit (numberToString n) = true.
Proof.
  intros Hn. unfold numberToString.
  destruct n as [|p|p]; [split; [discriminate | reflexivity] | | lia].
  cbn [Z.to_int NilZero.string_of_int NilZero.string_of_uint].
  pose proof (uint_digits (Pos.to_uint p)) as Hd.
  pose proof (DecimalPos.Unsigned.to_uint_nonnil p) as Hnn.
  destruct (Pos.to_uint p); try contradiction;
    (split; [discriminate | exact Hd]).
Qed.

Lemma repeat_spaces (k : nat) : forallb is_space (repeat SPACE k) = true.
Proof. induction k; cbn; auto. Qed.

(** A numbered line passes the annotation test, which leaves a space
    and the line. *)
Lemma afterAnnotation_numbered (width n : Z) (line : jsstring) :
  0 <= n ->
  afterAnnotation (padStart width (numberToString n) ++ js " | " ++ line)
  = Some (SPACE :: line).
Proof.
  intros Hn. destruct (numberToString_digits n Hn) as [Hne Hds].
  unfold padStart. rewrite <- app_assoc.
  change (js " | " ++ line) with ([SPACE] ++ PIPE :: SPACE :: line).
  apply afterAnnotation_complete; auto.
  - apply repeat_spaces.
  - discriminate.
Qed.

Lemma chopCR_after (p line : jsstring) :
  chopCR ((p ++ [SPACE]) ++ line) = (p ++ [SPACE]) ++ chopCR line.
Proof.
  induction p as [|a p IH].
  - destruct line; reflexivity.
  - change (((a :: p) ++ [SPACE]) ++ line)
      with (a :: (p ++ [SPACE]) ++ line).
    change (((a :: p) ++ [SPACE]) ++ chopCR line)
      with (a :: (p ++ [SPACE]) ++ chopCR line).
    rewrite <- IH. destruct p; reflexivity.
Qed.

(** Without a carriage return at its end, a numbered line is still
    numbered. *)
Lemma hasLineNumber_numbered (width n : Z) (line : jsstring) :
  0 <= n ->
  hasLineNumber (padStart width (numberToString n) ++ js " | " ++ line) = true
  /\ hasLineNumber
       (chopCR (padStart width (numberToString n) ++ js " | " ++ line))
     = true.
Proof.
  intros Hn. unfold hasLineNumber. split.
  - rewrite afterAnnotation_numbered by exact Hn. reflexivity.
  - replace (padStart width (numberToString n) ++ js " | " ++ line)
      with (((padStart width (numberToString n) ++ [SPACE; PIPE])
             ++ [SPACE]) ++ line)
      by (rewrite <- !app_assoc; reflexivity).
    rewrite chopCR_after.
    replace (((padStart width (numberToString n) ++ [SPACE; PIPE])
              ++ [SPACE]) ++ chopCR line)
      with (padStart width (numberToString n) ++ js " | " ++ chopCR line)
      by (rewrite <- !app_assoc; reflexivity).
    rewrite afterAnnotation_numbered by exact Hn. reflexivity.
Qed.

Lemma splitLines_line (l x : jsstring) :
  ~ In LF l -> splitLines (l ++ LF :: x) = chopCR l :: splitLines x.
Proof.
  induction l as [|c l IH]; intros H; [reflexivity|].
  cbn [app]. rewrite splitLines_cons.
  destruct (N.eqb_spec c LF) as [-> | Hc];
    [exfalso; apply H; left; reflexivity|].
  assert (Hl : ~ In LF l) by (intros H'; apply H; right; exact H').
  destruct l as [|d l]; cbn [app].
  - change (LF =? LF)%N with true. rewrite andb_true_r. cbn [chopCR].
    destruct (c =? CR)%N; reflexivity.
  - destruct (N.eqb_spec d LF) as [-> | Hd];
      [exfalso; apply Hl; left; reflexivity|].
    rewrite andb_false_r. specialize (IH Hl). cbn [app] in IH.
    rewrite IH. reflexivity.
Qed.

Lemma splitLF_no_LF (s : jsstring) :
  Forall (fun line => ~ In LF line) (splitLF s).
Proof.
  induction s as [|c s IH]; [repeat constructor; intros []|].
  cbn [splitLF]. destruct (N.eqb_spec c LF) as [-> | Hc].
  - constructor; [intros [] | exact IH].
  - destruct (splitLF s) as [|l ls]; cbn [consLine].
    + repeat constructor. intros [H | []]. congruence.
    + apply Forall_cons_iff in IH. destruct IH as [Hl Hls].
      constructor; [|exact Hls]. intros [H | H]; [congruence | auto].
Qed.

Lemma splitLF_nonempty (s : jsstring) : splitLF s <> [].
Proof.
  induction s as [|c s IH]; [discriminate|]. cbn [splitLF].
  destruct (c =? LF)%N; [discriminate|].
  destruct (splitLF s); [contradiction | discriminate].
Qed.

(** [content.split('\n').join('\n')] is [content]. *)
Lemma join_splitLF (s : jsstring) : join [LF] (splitLF s) = s.
Proof.
  induction s as [|c s IH]; [reflexivity|]. cbn [splitLF].
  destruct (N.eqb_spec c LF) as [-> | Hc].
  - rewrite join_cons by apply splitLF_nonempty. rewrite IH. reflexivity.
  - rewrite join_consLine by apply splitLF_nonempty. rewrite IH. reflexivity.
Qed.

Lemma numbered_no_LF (width n : Z) (line : jsstring) :
  0 <= n -> ~ In LF line ->
  ~ In LF (padStart width (numberToString n) ++ js " | " ++ line).
Proof.
  intros Hn Hline Hin. destruct (numberToString_digits n Hn) as [_ Hds].
  unfold padStart in Hin. rewrite <- app_assoc in Hin.
  apply in_app_or in Hin. destruct Hin as [Hin | Hin].
  - apply repeat_spec in Hin. discriminate Hin.
  - apply in_app_or in Hin. destruct Hin as [Hin | Hin].
    + rewrite forallb_forall in Hds. specialize (Hds _ Hin).
      discriminate Hds.
    + apply in_app_or in Hin. destruct Hin as [Hin | Hin]; [|auto].
      cbn in Hin. intuition discriminate.
Qed.

Lemma numberLines_all_numbered (width startLine : Z) :
  0 <= startLine ->
  forall lines index, 0 <= index -> lines <> [] ->
    Forall (fun line => ~ In LF line) lines ->
    forallb hasLineNumber
      (splitLines (join [LF] (numberLines width startLine index lines)))
    = true.
Proof.
  intros Hstart. induction lines as [|line lines IH];
    intros index Hindex Hne Hall; [contradiction|].
  apply Forall_cons_iff in Hall. destruct Hall as [Hline Hlines].
  cbn [numberLines].
  destruct (hasLineNumber_numbered width (startLine + index) line)
    as [Hnum Hchop]; [lia|].
  pose proof (numbered_no_LF width (startLine + index) line) as HnoLF.
  destruct lines as [|line' lines].
  - cbn [numberLines join]. rewrite splitLines_single by (apply HnoLF; auto; lia).
    cbn [forallb]. rewrite Hnum. reflexivity.
  - rewrite join_cons by discriminate. cbn [app].
    rewrite splitLines_line by (apply HnoLF; auto; lia).
    cbn [forallb]. rewrite Hchop. cbn [andb].
    apply IH; [lia | discriminate | exact Hlines].
Qed.

Lemma numbered_lines_pass (content : jsstring) (startLine : Z) :
  0 <= startLine ->
  everyLineHasLineNumbers (addLineNumbers content startLine) = true.
Proof.
  intros Hstart. unfold everyLineHasLineNumbers, addLineNumbers.
  apply andb_true_iff. split.
  - apply Z.ltb_lt. unfold len.
    pose proof (splitLines_nonempty
                  (join [LF]
                     (numberLines
                        (len (numberToString
                                (startLine + len (splitLF content) - 1)))
                        startLine 0 (splitLF content)))) as H.
    destruct (splitLines _); [contradiction | cbn [length]; lia].
  - apply numberLines_all_numbered;
      [exact Hstart | lia | apply splitLF_nonempty | apply splitLF_no_LF].
Qed.

(** Whatever the content, and for a start number that is not negative
    (the numbers written staying exact whole numbers), every line of
    the output of [addLineNumbers] passes the annotation test. *)
Theorem addLineNumbers_annotated (content : jsstring) (startLine : Z) :
  0 <= startLine ->
  startLine + len (splitLF content) - 1 <= MAX_SAFE_INTEGER ->
  everyLineHasLineNumbers (addLineNumbers content startLine) = true.
Proof. intros H _. exact (numbered_lines_pass content startLine H). Qed.

(** An instance: two lines of a document with carriage returns,
    numbered from 9. *)
Lemma addLineNumbers_annotated_witness :
  everyLineHasLineNumbers (addLineNumbers (js "a\r\nb") 9) = true.
Proof.
  apply addLineNumbers_annotated; [lia | vm_compute; discriminate].
Defined.

Lemma lineFeedsOnly_cons (c : char) (s : jsstring) :
  lineFeedsOnly (c :: s) = true ->
  (c = LF \/ is_line_terminator c = false) /\ lineFeedsOnly s = true.
Proof.
  unfold lineFeedsOnly. cbn [forallb]. intros H.
  apply andb_true_iff in H. destruct H as [Hc Hs]. split; [|exact Hs].
  apply orb_true_iff in Hc. destruct Hc as [Hc | Hc].
  - right. apply negb_true_iff, Hc.
  - left. apply N.eqb_eq, Hc.
Qed.

(** The lines of a text whose only line terminator is the line feed
    hold no line terminator. *)
Lemma splitLF_plain_lines (s : jsstring) :
  lineFeedsOnly s = true ->
  Forall (fun line => existsb is_line_terminator line = false) (splitLF s).
Proof.
  induction s as [|c s IH]; intros H; [repeat constructor|].
  apply lineFeedsOnly_cons in H. destruct H as [Hc Hs].
  specialize (IH Hs). cbn [splitLF].
  destruct (N.eqb_spec c LF) as [-> | Hne].
  - constructor; [reflexivity | exact IH].
  - destruct Hc as [Hc | Hc]; [contradiction|].
    destruct (splitLF s) as [|l ls]; cbn [consLine].
    + repeat constructor. cbn [existsb]. rewrite Hc. reflexivity.
    + apply Forall_cons_iff in IH. destruct IH as [Hl Hls].
      constructor; [|exact Hls]. cbn [existsb]. rewrite Hc, Hl. reflexivity.
Qed.

Lemma plain_no_CR (line : jsstring) :
  existsb is_line_terminator line = false -> ~ In CR line /\ ~ In LF line.
Proof.
  intros H. split; intros Hin;
    (assert (E : existsb is_line_terminator line = true)
       by (apply existsb_exists; eexists; split; [exact Hin | reflexivity]);
     congruence).
Qed.

Lemma chopCR_plain (line : jsstring) : ~ In CR line -> chopCR line = line.
Proof.
  induction line as [|c line IH]; intros H; [reflexivity|].
  assert (Hc : c <> CR) by (intros ->; apply H; left; reflexivity).
  assert (Hl : ~ In CR line) by (intros H'; apply H; right; exact H').
  cbn [chopCR]. destruct line as [|d line].
  - destruct (N.eqb_spec c CR); [contradiction | reflexivity].
  - rewrite (IH Hl). reflexivity.
Qed.

Lemma numbered_no_CR (width n : Z) (line : jsstring) :
  0 <= n -> ~ In CR line ->
  ~ In CR (padStart width (numberToString n) ++ js " | " ++ line).
Proof.
  intros Hn Hline Hin. destruct (numberToString_digits n Hn) as [_ Hds].
  unfold padStart in Hin. rewrite <- app_assoc in Hin.
  apply in_app_or in Hin. destruct Hin as [Hin | Hin].
  - apply repeat_spec in Hin. discriminate Hin.
  - apply in_app_or in Hin. destruct Hin as [Hin | Hin].
    + rewrite forallb_forall in Hds. specialize (Hds _ Hin).
      discriminate Hds.
    + apply in_app_or in Hin. destruct Hin as [Hin | Hin]; [|auto].
      cbn in Hin. intuition discriminate.
Qed.

(** [stripLine] gives the line of a numbered line back when the line
    holds no line terminator. *)
Lemma stripLine_numbered (width n : Z) (line : jsstring) :
  0 <= n -> existsb is_line_terminator line = false ->
  stripLine (padStart width (numberToString n) ++ js " | " ++ line) = line.
Proof.
  intros Hn Hline. unfold stripLine.
  rewrite afterAnnotation_numbered by exact Hn.
  change (is_space SPACE) with true. cbv iota. unfold dotStarToEnd.
  rewrite Hline. reflexivity.
Qed.

Lemma numberLines_strip (width startLine : Z) :
  0 <= startLine ->
  forall lines index, 0 <= index -> lines <> [] ->
    Forall (fun line => existsb is_line_terminator line = false) lines ->
    map stripLine
      (splitLines (join [LF] (numberLines width startLine index lines)))
    = lines
    /\ ~ In CR (join [LF] (numberLines width startLine index lines)).
Proof.
  intros Hstart. induction lines as [|line lines IH];
    intros index Hindex Hne Hall; [contradiction|].
  apply Forall_cons_iff in Hall. destruct Hall as [Hline Hlines].
  destruct (plain_no_CR line Hline) as [HnoCR HnoLF].
  pose proof (numbered_no_LF width (startLine + index) line
                ltac:(lia) HnoLF) as HLF.
  pose proof (numbered_no_CR width (startLine + index) line
                ltac:(lia) HnoCR) as HCR.
  cbn [numberLines]. destruct lines as [|line' lines].
  - cbn [numberLines join]. rewrite splitLines_single by exact HLF.
    cbn [map]. rewrite stripLine_numbered by (auto; lia). auto.
  - rewrite join_cons by discriminate. cbn [app].
    rewrite splitLines_line by exact HLF.
    rewrite chopCR_plain by exact HCR. cbn [map].
    rewrite stripLine_numbered by (auto; lia).
    destruct (IH (index + 1) ltac:(lia) ltac:(discriminate) Hlines)
      as [IH1 IH2].
    split; [rewrite IH1; reflexivity|].
    intros Hin. apply in_app_or in Hin. destruct Hin as [Hin | Hin];
      [contradiction|].
    destruct Hin as [Hin | Hin]; [discriminate Hin | contradiction].
Qed.

Lemma includes_CRLF_no_CR (s : jsstring) :
  ~ In CR s -> includes CRLF s = false.
Proof.
  induction s as [|c s IH]; intros H; [reflexivity|].
  cbn [includes stripPrefix CRLF].
  destruct (N.eqb_spec CR c) as [<- | _];
    [exfalso; apply H; left; reflexivity|].
  apply IH. intros H'. apply H. right. exact H'.
Qed.

Lemma numbered_lines_strip (content : jsstring) (startLine : Z) :
  0 <= startLine -> lineFeedsOnly content = true ->
  stripLineNumbers (addLineNumbers content startLine) = content.
Proof.
  intros Hstart Hplain. unfold stripLineNumbers, addLineNumbers.
  destruct (numberLines_strip
              (len (numberToString (startLine + len (splitLF content) - 1)))
              startLine Hstart (splitLF content) 0 ltac:(lia)
              (splitLF_nonempty content) (splitLF_plain_lines content Hplain))
    as [Hmap HnoCR].
  rewrite Hmap. unfold detectLineEnding.
  rewrite includes_CRLF_no_CR by exact HnoCR.
  apply join_splitLF.
Qed.

(** Numbering the lines of a text and stripping the numbers again gives
    the text back, when the line feed is its only line terminator and
    the start number is not negative (the numbers written staying exact
    whole numbers). *)
Theorem stripLineNumbers_addLineNumbers (content : jsstring) (startLine : Z) :
  0 <= startLine ->
  startLine + len (splitLF content) - 1 <= MAX_SAFE_INTEGER ->
  lineFeedsOnly content = true ->
  stripLineNumbers (addLineNumbers content startLine) = content.
Proof. intros H _. exact (numbered_lines_strip content startLine H). Qed.

(** An instance: four lines, one of them empty and one indented,
    numbered from 98. *)
Lemma stripLineNumbers_addLineNumbers_witness :
  stripLineNumbers (addLineNumbers (js "a\n  b\n\nc") 98) = js "a\n  b\n\nc".
Proof.
  apply stripLineNumbers_addLineNumbers;
    [lia | vm_compute; discriminate | vm_compute; reflexivity].
Defined.

(** Blocks that [addLineNumbers] has numbered, from start numbers that
    are not negative and with the line feed as their only line
    terminator, are read as the blocks they were made from. *)
Theorem stripBlocks_numbered (searchContent replaceContent : jsstring)
    (searchStart replaceStart : Z) :
  0 <= searchStart -> 0 <= replaceStart ->
  searchStart + len (splitLF searchContent) - 1 <= MAX_SAFE_INTEGER ->
  replaceStart + len (splitLF replaceContent) - 1 <= MAX_SAFE_INTEGER ->
  lineFeedsOnly searchContent = true -> lineFeedsOnly replaceContent = true ->
  stripBlocks (addLineNumbers searchContent searchStart)
    (addLineNumbers replaceContent replaceStart)
  = (searchContent, replaceContent).
Proof.
  intros Hs Hr _ _ Ps Pr. unfold stripBlocks.
  rewrite !numbered_lines_pass by assumption. cbn [andb].
  rewrite !numbered_lines_strip by assumption. reflexivity.
Qed.

(** An instance: the second scenario of the specification. *)
Lemma stripBlocks_numbered_witness :
  stripBlocks (addLineNumbers (js "    return 1") 12)
    (addLineNumbers (js "    return 2") 12)
  = (js "    return 1", js "    return 2").
Proof.
  apply stripBlocks_numbered; try lia;
    try (vm_compute; reflexivity); vm_compute; discriminate.
Defined.

(** ** Diff texts without a block *)

Lemma includes_false_suffix (needle p t : jsstring) :
  includes needle (p ++ t) = false -> stripPrefix needle t = None.
Proof.
  induction p as [|c p IH]; cbn [app]; intros H.
  - destruct t; cbn [includes] in H;
      destruct (stripPrefix needle _); [discriminate | reflexivity
                                       | discriminate | reflexivity].
  - apply includes_cons_false in H. apply IH, H.
Qed.

Lemma searchFrom_none {R} (m : jsstring -> option R) (s : jsstring) :
  (forall p t, s = p ++ t -> m t = None) -> searchFrom m s = None.
Proof.
  induction s as [|c s IH]; intros H; cbn [searchFrom].
  - rewrite (H [] [] eq_refl). reflexivity.
  - rewrite (H [] (c :: s) eq_refl). apply IH.
    intros p t ->. exact (H (c :: p) t eq_refl).
Qed.

Lemma lazyAny_none {R} (k : jsstring -> jsstring -> option R) :
  forall s acc,
    (forall acc' p t, s = p ++ t -> k acc' t = None) ->
    lazyAny k acc s = None.
Proof.
  induction s as [|c s IH]; intros acc H; cbn [lazyAny].
  - rewrite (H (rev acc) [] [] eq_refl). reflexivity.
  - rewrite (H (rev acc) [] (c :: s) eq_refl). apply IH.
    intros acc' p t ->. exact (H acc' (c :: p) t eq_refl).
Qed.

Lemma optNewline_lit_none {R} (marker : jsstring)
    (k : jsstring -> option R) (diff p t : jsstring) :
  (forall p' t', diff = p' ++ t' -> stripPrefix marker t' = None) ->
  diff = p ++ t ->
  optNewline (lit marker k) t = None.
Proof.
  intros H E. apply optNewline_none; unfold lit.
  - rewrite (H p t E). reflexivity.
  - intros s' ->. rewrite (H (p ++ [LF]) s'); [reflexivity|].
    rewrite <- app_assoc. exact E.
Qed.

(** A diff text in which one of the three markers does not occur has
    no block. *)
Lemma parseDiff_without_marker (diffContent : jsstring) :
  includes SEARCH_MARKER diffContent = false
  \/ includes SEPARATOR diffContent = false
  \/ includes REPLACE_MARKER diffContent = false ->
  parseDiff diffContent = None.
Proof.
  intros H. unfold parseDiff. apply searchFrom_none. intros p t E.
  unfold matchBlockAt, lit at 1.
  destruct (stripPrefix SEARCH_MARKER t) as [t1|] eqn:E1; [|reflexivity].
  destruct H as [H | [H | H]].
  - rewrite E in H. apply includes_false_suffix in H. congruence.
  - apply lazyAny_none. intros acc' p2 t2 E2.
    apply (optNewline_lit_none SEPARATOR _ diffContent
             (p ++ SEARCH_MARKER ++ p2)).
    + intros p' t' ->. exact (includes_false_suffix _ _ _ H).
    + apply stripPrefix_Some in E1. rewrite E, E1, E2, <- !app_assoc.
      reflexivity.
  - apply lazyAny_none. intros acc' p2 t2 E2.
    apply stripPrefix_Some in E1.
    apply optNewline_none; unfold lit at 1.
    + destruct (stripPrefix SEPARATOR t2) as [t3|] eqn:E3; [|reflexivity].
      apply stripPrefix_Some in E3.
      apply lazyAny_none. intros acc'' p4 t4 E4.
      apply (optNewline_lit_none REPLACE_MARKER _ diffContent
               (p ++ SEARCH_MARKER ++ p2 ++ SEPARATOR ++ p4)).
      * intros p' t' ->. exact (includes_false_suffix _ _ _ H).
      * rewrite E, E1, E2, E3, E4, <- !app_assoc. reflexivity.
    + intros s' Es'.
      destruct (stripPrefix SEPARATOR s') as [t3|] eqn:E3; [|reflexivity].
      apply stripPrefix_Some in E3.
      apply lazyAny_none. intros acc'' p4 t4 E4.
      apply (optNewline_lit_none REPLACE_MARKER _ diffContent
               (p ++ SEARCH_MARKER ++ p2 ++ [LF] ++ SEPARATOR ++ p4)).
      * intros p' t' ->. exact (includes_false_suffix _ _ _ H).
      * rewrite E, E1, E2, Es', E3, E4, <- !app_assoc. reflexivity.
Qed.

(** [applyDiff] refuses, with the format error and whatever the
    document and the hints are, a diff text that lacks the SEARCH
    marker with its line feed, the separator with its line feed, or the
    REPLACE marker. *)
Theorem applyDiff_without_marker (self : SearchReplaceDiffStrategy)
    (originalContent diffContent : jsstring) (startLine endLine : option Z) :
  includes SEARCH_MARKER diffContent = false
  \/ includes SEPARATOR diffContent = false
  \/ includes REPLACE_MARKER diffContent = false ->
  applyDiff self originalContent diffContent startLine endLine
  = Some (Failure InvalidDiffFormat).
Proof.
  intros H. unfold applyDiff, patchLines.
  rewrite (parseDiff_without_marker _ H). reflexivity.
Qed.

(** An instance: a block whose separator has six signs only. *)
Lemma applyDiff_without_marker_witness :
  applyDiff defaultStrategy (js "a")
    (js "<<<<<<< SEARCH\na\n======\nb\n>>>>>>> REPLACE") (Some 1) (Some 1)
  = Some (Failure InvalidDiffFormat).
Proof.
  apply applyDiff_without_marker. right; left. vm_compute. reflexivity.
Defined.

(** A patch built around two texts reads back as their lines, when the
    SEARCH text with its line feed does not hold the separator, the
    REPLACE text does not hold the end marker, and the two are not both
    numbered on every line. *)
Theorem patchLines_buildDiff (search replace : jsstring) :
  includes SEPARATOR (search ++ [LF]) = false ->
  includes REPLACE_MARKER replace = false ->
  everyLineHasLineNumbers search && everyLineHasLineNumbers replace = false ->
  patchLines (buildDiff search replace)
  = Some (blockLines search, blockLines replace).
Proof.
  intros Hsep Hend Hann. unfold patchLines.
  rewrite (parseDiff_buildDiff _ _ Hsep Hend). unfold stripBlocks.
  rewrite Hann. reflexivity.
Qed.

(** An instance: two lines for one. *)
Lemma patchLines_buildDiff_witness :
  patchLines (buildDiff (js "a\nb") (js "c"))
  = Some (blockLines (js "a\nb"), blockLines (js "c")).
Proof.
  apply patchLines_buildDiff; vm_compute; reflexivity.
Defined.

(** ** What the score does not see *)

Lemma collapseFrom_run (w s : jsstring) :
  forallb is_space w = true ->
  collapseFrom true (w ++ s) = collapseFrom true s.
Proof.
  induction w as [|c w IH]; cbn [app forallb]; [reflexivity|].
  intros H. apply andb_true_iff in H. destruct H as [Hc Hw].
  rewrite collapseFrom_cons, Hc. apply IH, Hw.
Qed.

(** White space put behind a line feed is lost in the collapse. *)
Lemma collapseFrom_after_LF (w x y : jsstring) :
  forallb is_space w = true ->
  forall inRun,
    collapseFrom inRun (x ++ LF :: w ++ y) = collapseFrom inRun (x ++ LF :: y).
Proof.
  intros Hw. induction x as [|c x IH]; intros inRun; cbn [app].
  - rewrite !(collapseFrom_cons _ LF). change (is_space LF) with true.
    cbv iota. rewrite collapseFrom_run by exact Hw. reflexivity.
  - rewrite !(collapseFrom_cons _ c), !IH. reflexivity.
Qed.

Lemma trimStart_collapseFrom (s : jsstring) :
  trimStart (collapseFrom true s) = trimStart (collapseFrom false s).
Proof.
  destruct s as [|c s]; [reflexivity|].
  rewrite !collapseFrom_cons. destruct (is_space c); reflexivity.
Qed.

(** White space put in front of a text is lost in the normal form. *)
Lemma normalizeStr_leading (w s : jsstring) :
  forallb is_space w = true -> normalizeStr (w ++ s) = normalizeStr s.
Proof.
  intros Hw. unfold normalizeStr, trim, collapseSpaces. f_equal.
  destruct w as [|c w]; [reflexivity|].
  cbn [app forallb] in *. apply andb_true_iff in Hw. destruct Hw as [Hc Hw].
  rewrite collapseFrom_cons, Hc, collapseFrom_run by exact Hw.
  change (trimStart (SPACE :: collapseFrom true s))
    with (trimStart (collapseFrom true s)).
  apply trimStart_collapseFrom.
Qed.

Lemma join_LF_cons (l : jsstring) (ls : list jsstring) :
  ls <> [] -> join [LF] (l :: ls) = l ++ LF :: join [LF] ls.
Proof. intros H. rewrite join_cons by exact H. reflexivity. Qed.

Lemma collapseFrom_reindent (pairs : list (jsstring * jsstring)) :
  Forall (fun p => forallb is_space (fst p) = true) pairs ->
  forall x inRun,
    collapseFrom inRun
      (x ++ LF :: join [LF] (map (fun p => fst p ++ snd p) pairs))
    = collapseFrom inRun (x ++ LF :: join [LF] (map snd pairs)).
Proof.
  induction pairs as [|[w l] pairs IH]; intros Hall x inRun; [reflexivity|].
  apply Forall_cons_iff in Hall. destruct Hall as [Hw Hall]. cbn [fst] in Hw.
  cbn [map fst snd]. destruct pairs as [|q pairs].
  - cbn [map join]. apply collapseFrom_after_LF, Hw.
  - rewrite !join_LF_cons by discriminate.
    rewrite <- app_assoc, collapseFrom_after_LF by exact Hw.
    replace (x ++ LF :: l ++ LF :: join [LF]
               (map (fun p => fst p ++ snd p) (q :: pairs)))
      with ((x ++ LF :: l) ++ LF :: join [LF]
              (map (fun p => fst p ++ snd p) (q :: pairs)))
      by (rewrite <- app_assoc; reflexivity).
    rewrite (IH Hall). rewrite <- app_assoc. reflexivity.
Qed.

Lemma normalizeStr_reindent (pairs : list (jsstring * jsstring)) :
  Forall (fun p => forallb is_space (fst p) = true) pairs ->
  normalizeStr (join [LF] (map (fun p => fst p ++ snd p) pairs))
  = normalizeStr (join [LF] (map snd pairs)).
Proof.
  intros Hall. destruct pairs as [|[w l] pairs]; [reflexivity|].
  apply Forall_cons_iff in Hall. destruct Hall as [Hw Hall]. cbn [fst] in Hw.
  cbn [map fst snd]. destruct pairs as [|q pairs].
  - cbn [map join]. apply normalizeStr_leading, Hw.
  - rewrite !join_LF_cons by discriminate.
    rewrite <- app_assoc, normalizeStr_leading by exact Hw.
    unfold normalizeStr, collapseSpaces.
    rewrite (collapseFrom_reindent _ Hall). reflexivity.
Qed.

(** The score of a chunk against a SEARCH text does not change when
    white space is put in front of lines of the chunk: matching does
    not see how the lines are indented. *)
Theorem getSimilarity_ignores_indentation
    (pairs : list (jsstring * jsstring)) (search : jsstring) :
  Forall (fun p => forallb is_space (fst p) = true) pairs ->
  getSimilarity (join [LF] (map (fun p => fst p ++ snd p) pairs)) search
  = getSimilarity (join [LF] (map snd pairs)) search.
Proof.
  intros Hall. unfold getSimilarity.
  rewrite (normalizeStr_reindent _ Hall). reflexivity.
Qed.

(** An instance: two lines moved in by four spaces and by a tab. *)
Lemma getSimilarity_ignores_indentation_witness :
  getSimilarity
    (join [LF]
       (map (fun p => fst p ++ snd p)
          [(js "    ", js "if (x) {"); (js "\t", js "return 1;")]))
    (js "if (x) {\nreturn 2;")
  = getSimilarity
      (join [LF]
         (map snd [(js "    ", js "if (x) {"); (js "\t", js "return 1;")]))
      (js "if (x) {\nreturn 2;").
Proof.
  apply getSimilarity_ignores_indentation.
  repeat constructor.
Defined.

(** The score of a text does not change when its lines are joined with
    line feeds: carriage returns in front of line feeds do not count. *)
Theorem getSimilarity_ignores_line_endings (original search : jsstring) :
  getSimilarity (join [LF] (splitLines original)) search
  = getSimilarity original search
  /\ getSimilarity original (join [LF] (splitLines search))
     = getSimilarity original search.
Proof.
  unfold getSimilarity. rewrite !normalizeStr_rejoin. split; [reflexivity|].
  destruct search as [|c search]; [reflexivity|].
  destruct (join [LF] (splitLines (c :: search))) eqn:E; [|reflexivity].
  cbn [isEmpty].
  assert (H : normalizeStr (c :: search) = normalizeStr []).
  { rewrite <- normalizeStr_rejoin, E. reflexivity. }
  rewrite H.
  destruct (streq (normalizeStr original) (normalizeStr [])) eqn:S;
    [reflexivity|].
  exfalso.
  pose proof (splitLines_nonempty (c :: search)) as Hne.
  rewrite splitLines_cons in E, Hne.
  destruct (c =? LF)%N.
  - rewrite join_cons in E by apply splitLines_nonempty. discriminate E.
  - destruct search as [|d search]; [discriminate E|].
    destruct ((c =? CR) && (d =? LF))%N.
    + rewrite join_cons in E by apply splitLines_nonempty. discriminate E.
    + rewrite join_consLine in E by apply splitLines_nonempty.
      discriminate E.
Qed.

(** ** The scan against the exhaustive reference *)

(** The middle-out scan always returns, and its best score is never below
    the best score of the windows of SEARCH length that lie inside the
    search window. *)
Theorem middleOutScan_at_least_exhaustive
    (originalLines searchLines : list jsstring) (lo hi : Z) :
  exists b,
    middleOutScan originalLines searchLines lo hi noMatch = Some b
    /\ (bestMatchScore (exhaustiveScanSpec originalLines searchLines lo hi)
        <= bestMatchScore b)%Q.
Proof.
  destruct (middleOutScan_returns originalLines searchLines lo hi noMatch)
    as [b E].
  exists b. split; [exact E|].
  apply (middleOutScan_exhaustive originalLines searchLines lo hi b E).
Qed.

(** When the SEARCH length fits between the midpoint of the window and its
    end, the middle-out scan returns the best score of the exhaustive
    reference. *)
Theorem middleOutScan_agrees_with_exhaustive
    (originalLines searchLines : list jsstring) (lo hi : Z) :
  lo - 1 <= midPoint lo hi <= hi - len searchLines ->
  exists b,
    middleOutScan originalLines searchLines lo hi noMatch = Some b
    /\ (bestMatchScore b
        == bestMatchScore (exhaustiveScanSpec originalLines searchLines lo hi))%Q.
Proof.
  intros Hmid.
  destruct (middleOutScan_returns originalLines searchLines lo hi noMatch)
    as [b E].
  exists b. split; [exact E|].
  apply (middleOutScan_exhaustive originalLines searchLines lo hi b E).
  exact Hmid.
Qed.

Lemma middleOutScan_agrees_with_exhaustive_witness :
  exists b,
    middleOutScan (splitLines (js "a\nb\nc\nd")) [js "c"] 0 4 noMatch = Some b
    /\ (bestMatchScore b
        == bestMatchScore
             (exhaustiveScanSpec (splitLines (js "a\nb\nc\nd")) [js "c"] 0 4))%Q.
Proof.
  apply middleOutScan_agrees_with_exhaustive.
  vm_compute. split; intro H; discriminate H.
Defined.

(** ** Insertion at a hinted line *)

Lemma insertion_at_both_hints_witness :
  applyDiff defaultStrategy (js "a\nb") (buildDiff (js "") (js "X"))
    (Some 2) (Some 2)
  = Some (Success
            (join (detectLineEnding (js "a\nb"))
               (firstn (Z.to_nat (2 - 1)) (splitLines (js "a\nb"))
                ++ indentedReplaceLines (splitLines (js "a\nb")) []
                     [js "X"] (2 - 1)
                ++ skipn (Z.to_nat (2 - 1)) (splitLines (js "a\nb"))))).
Proof.
  apply (insertion_at_both_hints defaultStrategy (js "a\nb")
           (buildDiff (js "") (js "X")) [js "X"] 2).
  - vm_compute. reflexivity.
  - vm_compute. split; intro H; discriminate H.
  - vm_compute. intro H; discriminate H.
Defined.
